(** * wdc-read-sensors: the delta-threshold trigger loop of
      [python-three-sensor.py]

    The development embeds [calculate_baseline] and the body of the
    [while] loop of [read_arduino_data], and checks the properties the
    specification states about the history, the rolling baseline, the
    arming guard, the threshold test and the two-second debounce.

    Numbers.  The program computes with Python floats.  They are
    idealised here as exact rationals ([Q]); every statement about equal
    values is stated up to [Qeq] ([==]).  Rounding is outside the model.

    Boundary.  Serial transport, the regular expressions of
    [extract_sensor_values] and the keyboard controller are not modelled:
    one loop iteration that reads a line is given as a [reading], the
    pair returned by [extract_sensor_values] together with the value of
    [time.time()] taken right after it. *)

From Stdlib Require Import QArith List Lia Lqa Bool Arith ZArith.
From Stdlib Require Import Ascii.
From Stdlib Require String.
Import ListNotations.
Import String.StringSyntax Ascii.AsciiSyntax.

Open Scope Q_scope.

(** ** Python primitives used by the program *)

Module Py.

(** [a > b] on numbers. *)
Definition gt (a b : Q) : bool := negb (Qle_bool a b).

(** [sum(values)]: left to right, starting from [0]. *)
Definition sum (values : list Q) : Q := fold_left Qplus values 0.

(** An [int] used as a number. *)
Definition of_nat (n : nat) : Q := inject_Z (Z.of_nat n).

(** [a / b]; [None] stands for [ZeroDivisionError]. *)
Definition div (a b : Q) : option Q :=
  if Qeq_bool b 0 then None else Some (a / b).

(** [values[-n:]] for [n >= 0].  Since [-0 == 0], [values[-0:]] is the
    whole list; otherwise the slice starts at [max (len - n) 0]. *)
Definition slice_last {A : Type} (values : list A) (n : nat) : list A :=
  match n with
  | O => values
  | S _ => skipn (length values - n) values
  end.

End Py.

(** ** [calculate_baseline]

    [window_size] is a natural number: negative window sizes are outside
    the model (the program only ever uses the default). *)

Definition default_window_size : nat := 10.

Definition calculate_baseline (values : list Q) (window_size : nat)
  : option Q :=
  if (length values <? window_size)%nat then
    match values with
    | [] => Some 0
    | _ :: _ => Py.div (Py.sum values) (Py.of_nat (length values))
    end
  else
    Py.div (Py.sum (Py.slice_last values window_size))
           (Py.of_nat window_size).

(** ** State, inputs and outputs of the loop of [read_arduino_data] *)

(** The four local variables the loop updates. *)
Record state : Type := mkState {
  last_stress_trigger : Q;
  last_sound_trigger : Q;
  photo_history : list Q;
  sound_history : list Q
}.

(** Their values before the loop starts (lines 111-116). *)
Definition init_state : state :=
  {| last_stress_trigger := 0;
     last_sound_trigger := 0;
     photo_history := [];
     sound_history := [] |}.

(** One iteration that found a line: the result of
    [extract_sensor_values(line)] and of [time.time()]. *)
Record reading : Type := mkReading {
  photo_value : option Q;
  sound_value : option Q;
  current_time : Q
}.

(** What an iteration does to the outside, in order.  [BaselineCall] is a
    ghost event: it marks a call of [calculate_baseline] and carries its
    argument; the other events are the program's prints and actions. *)
Inductive event : Type :=
| BaselineCall (values : list Q)
| PhotoReport (value baseline increase : Q)
| Yelling (increase threshold : Q)
| TriggerStress
| SoundReport (value baseline increase : Q)
| SoundSpike (increase threshold : Q)
| TriggerSound.

(** ** A state, output and exception monad for the loop body *)

Definition M (A : Type) : Type := state -> option (A * state * list event).

Definition ret {A : Type} (a : A) : M A := fun st => Some (a, st, []).

Definition bind {A B : Type} (m : M A) (k : A -> M B) : M B :=
  fun st =>
    match m st with
    | None => None
    | Some (a, st1, out1) =>
        match k a st1 with
        | None => None
        | Some (b, st2, out2) => Some (b, st2, out1 ++ out2)
        end
    end.

Definition get : M state := fun st => Some (st, st, []).
Definition put (st : state) : M unit := fun _ => Some (tt, st, []).
Definition emit (e : event) : M unit := fun st => Some (tt, st, [e]).

(** An exception leaves the loop ([except Exception]). *)
Definition lift {A : Type} (r : option A) : M A :=
  fun st => match r with
            | None => None
            | Some a => Some (a, st, [])
            end.

Notation "x <- m ;; k" := (bind m (fun x => k))
  (at level 61, m at next level, right associativity).
Notation "m ;; k" := (bind m (fun _ => k))
  (at level 61, right associativity).

(** Assignments to the four variables. *)
Definition set_last_stress_trigger (t : Q) : M unit :=
  st <- get ;;
  put {| last_stress_trigger := t;
         last_sound_trigger := last_sound_trigger st;
         photo_history := photo_history st;
         sound_history := sound_history st |}.

Definition set_last_sound_trigger (t : Q) : M unit :=
  st <- get ;;
  put {| last_stress_trigger := last_stress_trigger st;
         last_sound_trigger := t;
         photo_history := photo_history st;
         sound_history := sound_history st |}.

(** [photo_history.append(v)] and [sound_history.append(v)]. *)
Definition photo_history_append (v : Q) : M unit :=
  st <- get ;;
  put {| last_stress_trigger := last_stress_trigger st;
         last_sound_trigger := last_sound_trigger st;
         photo_history := photo_history st ++ [v];
         sound_history := sound_history st |}.

Definition sound_history_append (v : Q) : M unit :=
  st <- get ;;
  put {| last_stress_trigger := last_stress_trigger st;
         last_sound_trigger := last_sound_trigger st;
         photo_history := photo_history st;
         sound_history := sound_history st ++ [v] |}.

(** A call [calculate_baseline(values)], window size left to its
    default. *)
Definition call_calculate_baseline (values : list Q) : M Q :=
  emit (BaselineCall values) ;;
  lift (calculate_baseline values default_window_size).

(** [trigger_stress_action()] and [trigger_sound_action()]: the key
    presses and the print are one event each. *)
Definition trigger_stress_action : M unit := emit TriggerStress.
Definition trigger_sound_action : M unit := emit TriggerSound.

(** ** The loop body (lines 124-155) *)

Section ReadArduinoData.

Variables photo_threshold sound_threshold : Q.

(** Lines 128-140. *)
Definition process_photo (r : reading) : M unit :=
  match photo_value r with
  | None => ret tt
  | Some v =>
      photo_history_append v ;;
      st <- get ;;
      if (3 <? length (photo_history st))%nat then
        photo_baseline <- call_calculate_baseline (photo_history st) ;;
        let photo_increase := v - photo_baseline in
        emit (PhotoReport v photo_baseline photo_increase) ;;
        if Py.gt photo_increase photo_threshold
           && Py.gt (current_time r - last_stress_trigger st) 2
        then
          emit (Yelling photo_increase photo_threshold) ;;
          trigger_stress_action ;;
          set_last_stress_trigger (current_time r)
        else ret tt
      else ret tt
  end.

(** Lines 143-155. *)
Definition process_sound (r : reading) : M unit :=
  match sound_value r with
  | None => ret tt
  | Some v =>
      sound_history_append v ;;
      st <- get ;;
      if (3 <? length (sound_history st))%nat then
        sound_baseline <- call_calculate_baseline (sound_history st) ;;
        let sound_increase := v - sound_baseline in
        emit (SoundReport v sound_baseline sound_increase) ;;
        if Py.gt sound_increase sound_threshold
           && Py.gt (current_time r - last_sound_trigger st) 2
        then
          emit (SoundSpike sound_increase sound_threshold) ;;
          trigger_sound_action ;;
          set_last_sound_trigger (current_time r)
        else ret tt
      else ret tt
  end.

Definition loop_body (r : reading) : M unit :=
  process_photo r ;;
  process_sound r.

(** The loop over the lines that arrive: the final state and the
    output of each iteration, or [None] when an iteration raised. *)
Fixpoint run (st : state) (inputs : list reading)
  : option (state * list (list event)) :=
  match inputs with
  | [] => Some (st, [])
  | r :: rest =>
      match loop_body r st with
      | None => None
      | Some (_, st1, out) =>
          match run st1 rest with
          | None => None
          | Some (st2, outs) => Some (st2, out :: outs)
          end
      end
  end.

(** The loop of [read_arduino_data], started as the function starts it
    (lines 111-116), over the lines that arrive. *)
Definition read_arduino_data (inputs : list reading)
  : option (state * list (list event)) :=
  run init_state inputs.

End ReadArduinoData.

(** ** Channels and what is observed of an iteration *)

Inductive channel : Type := Photo | Sound.

Definition history (c : channel) (st : state) : list Q :=
  match c with
  | Photo => photo_history st
  | Sound => sound_history st
  end.

Definition last_trigger (c : channel) (st : state) : Q :=
  match c with
  | Photo => last_stress_trigger st
  | Sound => last_sound_trigger st
  end.

Definition value (c : channel) (r : reading) : option Q :=
  match c with
  | Photo => photo_value r
  | Sound => sound_value r
  end.

(** The threshold argument of [read_arduino_data] a channel is tested
    against. *)
Definition threshold (photo_threshold sound_threshold : Q) (c : channel)
  : Q :=
  match c with
  | Photo => photo_threshold
  | Sound => sound_threshold
  end.

Definition is_trigger (c : channel) (e : event) : bool :=
  match c, e with
  | Photo, TriggerStress => true
  | Sound, TriggerSound => true
  | _, _ => false
  end.

(** The iteration fired the channel's action. *)
Definition fired (c : channel) (out : list event) : bool :=
  existsb (is_trigger c) out.

(** The [(value, baseline, increase)] lines printed for a channel. *)
Definition reports (c : channel) (out : list event) : list (Q * Q * Q) :=
  flat_map (fun e =>
              match c, e with
              | Photo, PhotoReport v b d => [(v, b, d)]
              | Sound, SoundReport v b d => [(v, b, d)]
              | _, _ => []
              end) out.

(** The arguments of the calls of [calculate_baseline]. *)
Definition baseline_calls (out : list event) : list (list Q) :=
  flat_map (fun e =>
              match e with
              | BaselineCall values => [values]
              | _ => []
              end) out.

(** The samples a sequence of readings carries for a channel. *)
Definition samples (c : channel) (inputs : list reading) : list Q :=
  flat_map (fun r =>
              match value c r with
              | Some v => [v]
              | None => []
              end) inputs.

(** ** The loop body in closed form

    [detect] is what either block of the loop body computes for its
    channel: the new history, the new trigger time, and, when the guard
    [len(history) > 3] passed, the baseline and whether the channel
    fired.  Lemma [loop_body_step] below ties it to [loop_body]. *)

Definition baseline_value (values : list Q) (window_size : nat) : Q :=
  if (length values <? window_size)%nat then
    match values with
    | [] => 0
    | _ :: _ => Py.sum values / Py.of_nat (length values)
    end
  else Py.sum (Py.slice_last values window_size) / Py.of_nat window_size.

Definition detect (thr : Q) (sample : option Q) (now : Q)
    (h : list Q) (last : Q) : list Q * Q * option (Q * Q * bool) :=
  match sample with
  | None => (h, last, None)
  | Some v =>
      let h' := h ++ [v] in
      if (3 <? length h')%nat then
        let b := baseline_value h' default_window_size in
        let f := Py.gt (v - b) thr && Py.gt (now - last) 2 in
        (h', (if f then now else last), Some (v, b, f))
      else (h', last, None)
  end.

Definition photo_events (thr : Q) (h' : list Q) (o : option (Q * Q * bool))
  : list event :=
  match o with
  | None => []
  | Some (v, b, f) =>
      BaselineCall h' :: PhotoReport v b (v - b)
        :: (if f then [Yelling (v - b) thr; TriggerStress] else [])
  end.

Definition sound_events (thr : Q) (h' : list Q) (o : option (Q * Q * bool))
  : list event :=
  match o with
  | None => []
  | Some (v, b, f) =>
      BaselineCall h' :: SoundReport v b (v - b)
        :: (if f then [SoundSpike (v - b) thr; TriggerSound] else [])
  end.

Definition step (photo_threshold sound_threshold : Q) (r : reading)
    (st : state) : state * list event :=
  let '(ph, pl, po) :=
    detect photo_threshold (photo_value r) (current_time r)
           (photo_history st) (last_stress_trigger st) in
  let '(sh, sl, so) :=
    detect sound_threshold (sound_value r) (current_time r)
           (sound_history st) (last_sound_trigger st) in
  ({| last_stress_trigger := pl;
      last_sound_trigger := sl;
      photo_history := ph;
      sound_history := sh |},
   photo_events photo_threshold ph po ++ sound_events sound_threshold sh so).

(** ** Definitions that follow the specification's words

    They are compared with the program in the refinement statements. *)

Module Spec.

(** Arithmetic mean: the sum of the samples over their number. *)
Definition mean (l : list Q) : Q :=
  fold_right Qplus 0 l / inject_Z (Z.of_nat (length l)).

(** The most recent [n] samples of a sequence. *)
Definition most_recent (n : nat) (l : list Q) : list Q :=
  rev (firstn n (rev l)).

(** Baseline: mean of all samples if fewer than [W] are present, else
    mean of the most recent [W]. *)
Definition baseline (W : nat) (l : list Q) : Q :=
  if (length l <? W)%nat then mean l else mean (most_recent W l).

(** Step 1 of ingest: append, evicting the oldest entry if the History
    already holds [W] entries. *)
Definition push (W : nat) (h : list Q) (v : Q) : list Q :=
  if (W <=? length h)%nat then tl h ++ [v] else h ++ [v].

(** The bounded History after a sequence of ingests. *)
Definition window (W : nat) (h : list Q) (values : list Q) : list Q :=
  fold_left (push W) values h.

Inductive decision : Type :=
| NoAction
| Fire (value baseline delta : Q).

Record config : Type := mkConfig {
  window_size : nat;
  min_history_before_arming : nat;
  cfg_threshold : Q;
  cooldown : Q
}.

(** A channel of the bounded-window engine: History and
    [last_trigger_time]. *)
Definition chan : Type := (list Q * Q)%type.

(** Steps 1-6 of ingest over the bounded History. *)
Definition ingest (cfg : config) (ch : chan) (v timestamp : Q)
  : chan * decision :=
  let h := push (window_size cfg) (fst ch) v in
  if (length h <=? min_history_before_arming cfg)%nat then
    ((h, snd ch), NoAction)
  else
    let b := mean h in
    let delta := v - b in
    if Py.gt delta (cfg_threshold cfg)
       && Py.gt (timestamp - snd ch) (cooldown cfg)
    then ((h, timestamp), Fire v b delta)
    else ((h, snd ch), NoAction).

(** The decisions of a sequence of ingests on one channel. *)
Fixpoint ingest_all (cfg : config) (ch : chan) (xs : list (Q * Q))
  : list decision :=
  match xs with
  | [] => []
  | (v, t) :: rest =>
      let '(ch', d) := ingest cfg ch v t in
      d :: ingest_all cfg ch' rest
  end.

(** The program's constants as a configuration. *)
Definition program_config (thr : Q) : config :=
  {| window_size := 10;
     min_history_before_arming := 3;
     cfg_threshold := thr;
     cooldown := 2 |}.

(** Two decisions agree: both [NoAction], or both [Fire] with equal
    numbers. *)
Definition agree (d1 d2 : decision) : Prop :=
  match d1, d2 with
  | NoAction, NoAction => True
  | Fire v1 b1 e1, Fire v2 b2 e2 => v1 == v2 /\ b1 == b2 /\ e1 == e2
  | _, _ => False
  end.

End Spec.

(** The decision the program takes for a channel in one iteration, read
    off its output. *)
Definition decision_of (c : channel) (out : list event) : Spec.decision :=
  match reports c out with
  | (v, b, d) :: _ => if fired c out then Spec.Fire v b d else Spec.NoAction
  | [] => Spec.NoAction
  end.

(** The program's decisions for a channel, one per iteration that
    carries a sample for it, and those samples with their timestamps. *)
Fixpoint decisions (c : channel) (inputs : list reading)
    (outs : list (list event)) : list Spec.decision :=
  match inputs, outs with
  | r :: inputs', out :: outs' =>
      match value c r with
      | Some _ => decision_of c out :: decisions c inputs' outs'
      | None => decisions c inputs' outs'
      end
  | _, _ => []
  end.

Definition timed_samples (c : channel) (inputs : list reading)
  : list (Q * Q) :=
  flat_map (fun r =>
              match value c r with
              | Some v => [(v, current_time r)]
              | None => []
              end) inputs.

(** ** Auxiliary definitions for the statements *)

(** What [detect] yields for channel [c] in an iteration. *)
Definition detect_at (pt stt : Q) (c : channel) (r : reading) (st : state)
  : list Q * Q * option (Q * Q * bool) :=
  detect (threshold pt stt c) (value c r) (current_time r)
         (history c st) (last_trigger c st).

Definition flag (o : option (Q * Q * bool)) : bool :=
  match o with
  | Some (_, _, f) => f
  | None => false
  end.

(** [step] iterated over the readings. *)
Fixpoint steps (pt stt : Q) (st : state) (inputs : list reading)
  : state * list (list event) :=
  match inputs with
  | [] => (st, [])
  | r :: rest =>
      let (st1, out) := step pt stt r st in
      let (st2, outs) := steps pt stt st1 rest in
      (st2, out :: outs)
  end.

(** Replacing everything that belongs to one channel: its history and
    trigger time in a state, its sample in a reading, its threshold. *)
Definition set_channel (c : channel) (h : list Q) (l : Q) (st : state)
  : state :=
  match c with
  | Photo => {| last_stress_trigger := l;
                last_sound_trigger := last_sound_trigger st;
                photo_history := h;
                sound_history := sound_history st |}
  | Sound => {| last_stress_trigger := last_stress_trigger st;
                last_sound_trigger := l;
                photo_history := photo_history st;
                sound_history := h |}
  end.

Definition set_value (c : channel) (sample : option Q) (r : reading)
  : reading :=
  match c with
  | Photo => {| photo_value := sample;
                sound_value := sound_value r;
                current_time := current_time r |}
  | Sound => {| photo_value := photo_value r;
                sound_value := sample;
                current_time := current_time r |}
  end.

Definition set_threshold (c : channel) (thr : Q) (pts : Q * Q) : Q * Q :=
  match c with
  | Photo => (thr, snd pts)
  | Sound => (fst pts, thr)
  end.

(** A reading that carries one sample for one channel. *)
Definition reading_of (c : channel) (v t : Q) : reading :=
  set_value c (Some v)
    {| photo_value := None; sound_value := None; current_time := t |}.

(** The readings of the end-to-end scenario, at given timestamps. *)
Definition scenario_values : list Q := [50; 50; 50; 50; 50; 50; 80].

Definition scenario (times : list Q) : list reading :=
  map (fun vt => reading_of Photo (fst vt) (snd vt))
      (combine scenario_values times).

Definition scenario_times : list Q :=
  [0; 1 # 10; 2 # 10; 3 # 10; 4 # 10; 5 # 10; 6 # 10].

(** * The rest of the program

    Text.  A decoded line is a sequence of code points; the model covers
    the code points below 256, written as [ascii] values.  Lines with
    other code points are outside the model. *)

Definition text : Type := list ascii.

Abbreviation str := String.list_ascii_of_string.

(** ** [find_arduino_port] (lines 15-21)

    [glob.glob] is the file system's answer and is a parameter: the
    paths that match a pattern, in the order it returns them. *)

Definition patterns : list text :=
  [str "/dev/cu.usbmodem*"; str "/dev/cu.usbserial*"; str "/dev/cu.wchusb*"].

Definition find_arduino_port (glob : text -> list text) : option text :=
  let ports :=
    fold_left (fun ports pattern => ports ++ glob pattern) patterns [] in
  match ports with
  | [] => None
  | port :: _ => Some port
  end.

(** ** [trigger_stress_action] and [trigger_sound_action] (lines 23-57)

    What the two functions send to the keyboard controller and print,
    in order. *)

Inductive key : Type := Cmd | Shift | Alt | Char (c : ascii).

Inductive message : Type := HeartrateSpike | SoundSpikeMessage.

Inductive device_event : Type :=
| Press (k : key)
| Release (k : key)
| Say (m : message).

Definition trigger_stress_action_body : list device_event :=
  [Press Cmd; Press Shift; Press Alt; Press (Char "x");
   Release (Char "x"); Release Alt; Release Shift; Release Cmd;
   Say HeartrateSpike].

Definition trigger_sound_action_body : list device_event :=
  [Press Cmd; Press Shift; Press Alt; Press (Char "x");
   Release (Char "x"); Release Alt; Release Shift; Release Cmd;
   Say SoundSpikeMessage].

(** What an event of the loop does to the keyboard and the terminal
    through the two trigger functions. *)
Definition device_events (e : event) : list device_event :=
  match e with
  | TriggerStress => trigger_stress_action_body
  | TriggerSound => trigger_sound_action_body
  | _ => []
  end.






(** The number of iterations of a run that fired a channel, and their
    timestamps. *)
Definition fire_count (c : channel) (outs : list (list event)) : nat :=
  length (filter (fired c) outs).

Fixpoint fire_times (c : channel) (inputs : list reading)
    (outs : list (list event)) : list Q :=
  match inputs, outs with
  | r :: inputs', out :: outs' =>
      if fired c out then current_time r :: fire_times c inputs' outs'
      else fire_times c inputs' outs'
  | _, _ => []
  end.

(** [Forall] over the successive pairs of a list that starts after
    [a]. *)
Fixpoint chain (R : Q -> Q -> Prop) (a : Q) (l : list Q) : Prop :=
  match l with
  | [] => True
  | b :: rest => R a b /\ chain R b rest
  end.

(** ** Regular expressions, as far as the program uses them

    [re.search] is modelled by a backtracking matcher with Python's
    priorities: greedy quantifiers, alternatives tried in order, the
    leftmost starting position first.  The patterns of the program are a
    sequence of quantified single-character atoms followed by one
    capturing group that closes at the end of the pattern. *)

Module Re.

(** A literal character, [\s] and [\d]. *)
Inductive atom : Type := Lit (c : ascii) | Whitespace | Digit.

(** [\s] on the code points below 256: tab to carriage return, the
    separators 28 to 31, space, next line (133), no-break space (160). *)
Definition is_space (c : ascii) : bool :=
  let n := nat_of_ascii c in
  ((9 <=? n) && (n <=? 13)) || ((28 <=? n) && (n <=? 32))
  || (n =? 133) || (n =? 160).

(** [\d] on the code points below 256: the digits 0 to 9. *)
Definition is_digit (c : ascii) : bool :=
  let n := nat_of_ascii c in (48 <=? n) && (n <=? 57).

Definition accepts (a : atom) (c : ascii) : bool :=
  match a with
  | Lit x => Ascii.eqb x c
  | Whitespace => is_space c
  | Digit => is_digit c
  end.

(** No quantifier, [*], [+] and [?]. *)
Inductive quantifier : Type := Once | Star | Plus | Opt.

Definition item : Type := (atom * quantifier)%type.

(** [p*] followed by the continuation [k]: as many characters as
    possible first, then one less, and so on. *)
Fixpoint match_star {A : Type} (p : ascii -> bool) (s : text)
    (k : text -> option A) : option A :=
  match s with
  | c :: s' =>
      if p c then
        match match_star p s' k with
        | Some x => Some x
        | None => k s
        end
      else k s
  | [] => k s
  end.

Fixpoint match_items {A : Type} (items : list item) (s : text)
    (k : text -> option A) : option A :=
  match items with
  | [] => k s
  | (a, q) :: rest =>
      let next := fun s' => match_items rest s' k in
      match q with
      | Once =>
          match s with
          | c :: s' => if accepts a c then next s' else None
          | [] => None
          end
      | Star => match_star (accepts a) s next
      | Plus =>
          match s with
          | c :: s' =>
              if accepts a c then match_star (accepts a) s' next else None
          | [] => None
          end
      | Opt =>
          match s with
          | c :: s' =>
              if accepts a c then
                match next s' with
                | Some x => Some x
                | None => next s
                end
              else next s
          | [] => next s
          end
      end
  end.

(** A pattern [lead(group)]. *)
Record pattern : Type := mkPattern {
  lead : list item;
  group : list item
}.

(** A match that starts at the beginning of [s]: the text of group 1. *)
Definition match_at (p : pattern) (s : text) : option text :=
  match_items (lead p) s
    (fun s1 =>
       match_items (group p) s1
         (fun s2 => Some (firstn (length s1 - length s2) s1))).

(** [re.search(p, s)]: [m.group(1)] of the leftmost match, [None] when
    there is no match. *)
Fixpoint search (p : pattern) (s : text) : option text :=
  match match_at p s with
  | Some g => Some g
  | None =>
      match s with
      | [] => None
      | _ :: s' => search p s'
      end
  end.

End Re.

(** ** [extract_sensor_values] (lines 59-80) *)

Definition literal (s : text) : list Re.item :=
  map (fun c => (Re.Lit c, Re.Once)) s.

(** The capturing group: one or more digits, an optional point, any
    number of digits. *)
Definition number_group : list Re.item :=
  [(Re.Digit, Re.Plus); (Re.Lit ".", Re.Opt); (Re.Digit, Re.Star)].

(** The keyword, any amount of whitespace, the capturing group. *)
Definition reading_pattern (keyword : text) : Re.pattern :=
  {| Re.lead := literal keyword ++ [(Re.Whitespace, Re.Star)];
     Re.group := number_group |}.

Definition photo_pattern : Re.pattern :=
  reading_pattern (str "Photoresistor:").

Definition sound_pattern : Re.pattern :=
  reading_pattern (str "Sound Sensor:").

Fixpoint take_while (p : ascii -> bool) (s : text) : text :=
  match s with
  | c :: s' => if p c then c :: take_while p s' else []
  | [] => []
  end.

Fixpoint drop_while (p : ascii -> bool) (s : text) : text :=
  match s with
  | c :: s' => if p c then drop_while p s' else s
  | [] => []
  end.

Definition digit_value (c : ascii) : nat := nat_of_ascii c - 48.

(** The number a string of digits denotes. *)
Definition decimal (digits : text) : nat :=
  fold_left (fun n c => 10 * n + digit_value c)%nat digits 0%nat.

Definition is_empty (s : text) : bool :=
  match s with
  | [] => true
  | _ :: _ => false
  end.

(** [float(s)] on unsigned plain decimals: digits, optionally a point
    and more digits, with at least one digit.  [None] stands for
    [ValueError].  Signs, exponents, surrounding whitespace, underscores,
    [inf] and [nan], which [float] also accepts, are not modelled: the
    text the program passes has none of them. *)
Definition py_float (s : text) : option Q :=
  let int_part := take_while Re.is_digit s in
  match drop_while Re.is_digit s with
  | [] =>
      if is_empty int_part then None
      else Some (Py.of_nat (decimal int_part))
  | c :: frac_part =>
      if Ascii.eqb c "." && forallb Re.is_digit frac_part
         && negb (is_empty int_part && is_empty frac_part)
      then Some (Py.of_nat (decimal int_part)
                 + Py.of_nat (decimal frac_part)
                   / Py.of_nat (10 ^ length frac_part))
      else None
  end.

Definition extract_sensor_values (line : text) : option Q * option Q :=
  let photoresistor_value :=
    match Re.search photo_pattern line with
    | Some g => py_float g
    | None => None
    end in
  let sound_value :=
    match Re.search sound_pattern line with
    | Some g => py_float g
    | None => None
    end in
  (photoresistor_value, sound_value).

(** The keyword a channel is looked up with and the component of the
    result it gets. *)
Definition keyword (c : channel) : text :=
  match c with
  | Photo => str "Photoresistor:"
  | Sound => str "Sound Sensor:"
  end.

Definition extracted (c : channel) (line : text) : option Q :=
  match c with
  | Photo => fst (extract_sensor_values line)
  | Sound => snd (extract_sensor_values line)
  end.

(** ** From a line to a reading (lines 120-125) *)

(** [s.strip()] *)
Definition strip (s : text) : text :=
  rev (drop_while Re.is_space (rev (drop_while Re.is_space s))).

(** The reading of an iteration whose [readline()] decoded to [raw] and
    whose [time.time()] returned [now]. *)
Definition reading_of_line (raw : text) (now : Q) : reading :=
  let line := strip raw in
  let '(photo_value, sound_value) := extract_sensor_values line in
  {| photo_value := photo_value;
     sound_value := sound_value;
     current_time := now |}.

(** The loop over decoded lines with their timestamps. *)
Definition read_lines (photo_threshold sound_threshold : Q)
    (lines : list (text * Q)) : option (state * list (list event)) :=
  read_arduino_data photo_threshold sound_threshold
    (map (fun l => reading_of_line (fst l) (snd l)) lines).

(** What is left of [s] after the prefix [key], if [s] starts with it. *)
Fixpoint strip_prefix (key s : text) : option text :=
  match key with
  | [] => Some s
  | k :: key' =>
      match s with
      | c :: s' => if Ascii.eqb k c then strip_prefix key' s' else None
      | [] => None
      end
  end.

(** The text the capturing group takes at the start of [s]. *)
Definition number_text (s : text) : text :=
  take_while Re.is_digit s
  ++ match drop_while Re.is_digit s with
     | c :: t =>
         if Ascii.eqb "." c then c :: take_while Re.is_digit t else []
     | [] => []
     end.

(** What follows that text in [s]. *)
Definition number_rest (s : text) : text :=
  match drop_while Re.is_digit s with
  | c :: t => if Ascii.eqb "." c then drop_while Re.is_digit t else c :: t
  | [] => []
  end.

(** [t] does not start with a [p]-character. *)
Definition stops (p : ascii -> bool) (t : text) : Prop :=
  match t with
  | c :: _ => p c = false
  | [] => True
  end.

(** [Re.match_at (reading_pattern key)] in closed form. *)
Definition scan (key s : text) : option text :=
  match strip_prefix key s with
  | None => None
  | Some s0 =>
      match drop_while Re.is_space s0 with
      | c :: s1 =>
          if Re.is_digit c then Some (number_text (c :: s1)) else None
      | [] => None
      end
  end.

(** ** [read_arduino_data] as a whole (lines 88-166) and the entry point

    The outside world is given by what it answers: [glob] for the file
    system, [can_open] for [serial.Serial] (false: it raises), [start]
    for the first [time.time()], and one [tick] per iteration of the
    [while] loop: the clock read by the loop test, and what the serial
    port and the user did in that iteration.  A list of ticks that runs
    out is an observation that ends while the loop is still running. *)

Inductive arrival : Type :=
| Nothing                      (* in_waiting is 0 *)
| Line (raw : text) (now : Q)  (* a decoded line, and time.time() after it *)
| Undecodable                  (* decode raises UnicodeDecodeError *)
| Interrupt.                   (* KeyboardInterrupt *)

Record tick : Type := mkTick {
  clock : Q;
  arrived : arrival
}.

Inductive session_event : Type :=
| NoArduino
| Connect (port : text)
| Echo (line : text)
| Loop (e : event)
| StoppedByUser
| Error
| Disconnect.

Fixpoint session_loop (photo_threshold sound_threshold start duration : Q)
    (ticks : list tick) (st : state) : list session_event :=
  match ticks with
  | [] => []
  | t :: rest =>
      if Py.gt duration (clock t - start) then
        match arrived t with
        | Nothing =>
            session_loop photo_threshold sound_threshold start duration
              rest st
        | Line raw now =>
            match loop_body photo_threshold sound_threshold
                    (reading_of_line raw now) st with
            | Some (_, st1, out) =>
                Echo (strip raw) :: map Loop out
                ++ session_loop photo_threshold sound_threshold start
                     duration rest st1
            | None => [Echo (strip raw); Error; Disconnect]
            end
        | Undecodable => [Error; Disconnect]
        | Interrupt => [StoppedByUser; Disconnect]
        end
      else [Disconnect]
  end.

(** [not port] *)
Definition falsy (port : option text) : bool :=
  match port with
  | Some (_ :: _) => false
  | _ => true
  end.

Definition read_arduino_data_session (glob : text -> list text)
    (can_open : text -> bool) (port : option text)
    (duration photo_threshold sound_threshold start : Q)
    (ticks : list tick) : list session_event :=
  let port := if falsy port then find_arduino_port glob else port in
  match port with
  | Some (c :: p) =>
      if can_open (c :: p) then
        Connect (c :: p)
        :: session_loop photo_threshold sound_threshold start duration
             ticks init_state
      else [Error]
  | _ => [NoArduino]
  end.

(** The script's entry point (line 170); duration is left to its
    default. *)
Definition main (glob : text -> list text) (can_open : text -> bool)
    (start : Q) (ticks : list tick) : list session_event :=
  read_arduino_data_session glob can_open None 100 15 2 start ticks.

(** The lines of the ticks, and the loop events of a session. *)
Definition arrived_lines (ticks : list tick) : list (text * Q) :=
  flat_map (fun t =>
              match arrived t with
              | Line raw now => [(raw, now)]
              | _ => []
              end) ticks.

Definition loop_events (evs : list session_event) : list event :=
  flat_map (fun e =>
              match e with
              | Loop e' => [e']
              | _ => []
              end) evs.

(** A tick in which the loop keeps going, and one at which it ends. *)
Definition continues (start duration : Q) (t : tick) : bool :=
  Py.gt duration (clock t - start)
  && match arrived t with
     | Nothing | Line _ _ => true
     | Undecodable | Interrupt => false
     end.

(** * Properties *)

(** ** Numbers *)

Lemma gt_iff (a b : Q) : Py.gt a b = true <-> b < a.
Proof.
  unfold Py.gt. rewrite negb_true_iff.
  split; intro H.
  - apply Qnot_le_lt. intro L. apply Qle_bool_iff in L. congruence.
  - destruct (Qle_bool a b) eqn:E; [|reflexivity].
    apply Qle_bool_iff in E. exfalso. exact (Qlt_not_le _ _ H E).
Qed.

Lemma gt_false_iff (a b : Q) : Py.gt a b = false <-> a <= b.
Proof.
  unfold Py.gt. rewrite negb_false_iff. apply Qle_bool_iff.
Qed.

Lemma gt_compat (a a' b b' : Q) :
  a == a' -> b == b' -> Py.gt a b = Py.gt a' b'.
Proof.
  intros Ha Hb. unfold Py.gt. now rewrite Ha, Hb.
Qed.

Lemma of_nat_pos (n : nat) : (0 < n)%nat -> 0 < Py.of_nat n.
Proof.
  intro H. unfold Py.of_nat, Qlt. simpl. lia.
Qed.

Lemma div_nonzero (a b : Q) : 0 < b -> Py.div a b = Some (a / b).
Proof.
  intro H. unfold Py.div.
  destruct (Qeq_bool b 0) eqn:E; [|reflexivity].
  apply Qeq_bool_iff in E. rewrite E in H.
  exfalso. exact (Qlt_irrefl _ H).
Qed.

(** ** [calculate_baseline] returns, for every positive window size *)

Lemma calculate_baseline_value (values : list Q) (w : nat) :
  (0 < w)%nat ->
  calculate_baseline values w = Some (baseline_value values w).
Proof.
  intro Hw. unfold calculate_baseline, baseline_value.
  destruct (length values <? w)%nat.
  - destruct values as [|x xs]; [reflexivity|].
    apply div_nonzero, of_nat_pos. simpl. lia.
  - apply div_nonzero, of_nat_pos, Hw.
Qed.

(** ** The loop body computes [step] and never raises *)

Ltac run_monad :=
  unfold bind, get, put, emit, ret, lift; cbn [app fst snd].

Lemma process_photo_step (pt : Q) (r : reading) (st : state) :
  process_photo pt r st =
  let '(ph, pl, po) :=
    detect pt (photo_value r) (current_time r)
           (photo_history st) (last_stress_trigger st) in
  Some (tt,
        {| last_stress_trigger := pl;
           last_sound_trigger := last_sound_trigger st;
           photo_history := ph;
           sound_history := sound_history st |},
        photo_events pt ph po).
Proof.
  destruct st as [ls lo ph sh].
  unfold process_photo, detect.
  destruct (photo_value r) as [v|]; [|reflexivity].
  unfold photo_history_append, call_calculate_baseline,
    trigger_stress_action, set_last_stress_trigger.
  run_monad. cbn [photo_history last_stress_trigger last_sound_trigger
                  sound_history].
  destruct (3 <? length (ph ++ [v]))%nat; [|reflexivity].
  rewrite calculate_baseline_value by (unfold default_window_size; lia).
  cbn [app].
  destruct (Py.gt _ pt && Py.gt _ 2); reflexivity.
Qed.

Lemma process_sound_step (stt : Q) (r : reading) (st : state) :
  process_sound stt r st =
  let '(sh, sl, so) :=
    detect stt (sound_value r) (current_time r)
           (sound_history st) (last_sound_trigger st) in
  Some (tt,
        {| last_stress_trigger := last_stress_trigger st;
           last_sound_trigger := sl;
           photo_history := photo_history st;
           sound_history := sh |},
        sound_events stt sh so).
Proof.
  destruct st as [ls lo ph sh].
  unfold process_sound, detect.
  destruct (sound_value r) as [v|]; [|reflexivity].
  unfold sound_history_append, call_calculate_baseline,
    trigger_sound_action, set_last_sound_trigger.
  run_monad. cbn [photo_history last_stress_trigger last_sound_trigger
                  sound_history].
  destruct (3 <? length (sh ++ [v]))%nat; [|reflexivity].
  rewrite calculate_baseline_value by (unfold default_window_size; lia).
  cbn [app].
  destruct (Py.gt _ stt && Py.gt _ 2); reflexivity.
Qed.

Lemma loop_body_step (pt stt : Q) (r : reading) (st : state) :
  loop_body pt stt r st =
  Some (tt, fst (step pt stt r st), snd (step pt stt r st)).
Proof.
  unfold loop_body, bind, step.
  rewrite process_photo_step.
  destruct (detect pt _ _ _ _) as [[ph pl] po].
  rewrite process_sound_step.
  cbn [photo_history last_stress_trigger last_sound_trigger sound_history].
  destruct (detect stt _ _ _ _) as [[sh sl] so].
  reflexivity.
Qed.

(** ** One iteration, channel by channel *)

Lemma step_channel (pt stt : Q) (c : channel) (r : reading) (st : state) :
  let '(h, l, o) := detect_at pt stt c r st in
  history c (fst (step pt stt r st)) = h
  /\ last_trigger c (fst (step pt stt r st)) = l
  /\ fired c (snd (step pt stt r st)) = flag o
  /\ reports c (snd (step pt stt r st)) =
     match o with
     | Some (v, b, _) => [(v, b, v - b)]
     | None => []
     end.
Proof.
  unfold detect_at, step.
  destruct c; cbn [threshold value history last_trigger];
    destruct (detect pt _ _ _ _) as [[ph pl] po];
    destruct (detect stt _ _ _ _) as [[sh sl] so];
    cbn [fst snd history last_trigger photo_history sound_history
         last_stress_trigger last_sound_trigger];
    unfold fired, reports;
    rewrite existsb_app, flat_map_app;
    destruct po as [[[pv pb] [|]]|]; destruct so as [[[sv sb] [|]]|];
    repeat split; reflexivity.
Qed.

Lemma detect_history (thr : Q) (sample : option Q) (now : Q)
    (h : list Q) (last : Q) :
  fst (fst (detect thr sample now h last)) =
  match sample with
  | Some v => h ++ [v]
  | None => h
  end.
Proof.
  unfold detect. destruct sample as [v|]; [|reflexivity].
  destruct (3 <? length (h ++ [v]))%nat; reflexivity.
Qed.

Lemma detect_flag (thr : Q) (sample : option Q) (now : Q)
    (h : list Q) (last : Q) :
  flag (snd (detect thr sample now h last)) =
  match sample with
  | Some v =>
      (3 <? length (h ++ [v]))%nat
      && (Py.gt (v - baseline_value (h ++ [v]) default_window_size) thr
          && Py.gt (now - last) 2)
  | None => false
  end.
Proof.
  unfold detect. destruct sample as [v|]; [|reflexivity].
  destruct (3 <? length (h ++ [v]))%nat; reflexivity.
Qed.

Lemma detect_last (thr : Q) (sample : option Q) (now : Q)
    (h : list Q) (last : Q) :
  snd (fst (detect thr sample now h last)) =
  if flag (snd (detect thr sample now h last)) then now else last.
Proof.
  unfold detect. destruct sample as [v|]; [|reflexivity].
  destruct (3 <? length (h ++ [v]))%nat; [|reflexivity].
  cbn [fst snd flag]. reflexivity.
Qed.

(** The facts about one iteration the claims are proved from. *)
Lemma loop_body_channel (pt stt : Q) (c : channel) (r : reading)
    (st st' : state) (out : list event) :
  loop_body pt stt r st = Some (tt, st', out) ->
  history c st' =
    match value c r with
    | Some v => history c st ++ [v]
    | None => history c st
    end
  /\ fired c out =
     match value c r with
     | Some v =>
         (3 <? length (history c st ++ [v]))%nat
         && (Py.gt (v - baseline_value (history c st ++ [v])
                                       default_window_size)
                   (threshold pt stt c)
             && Py.gt (current_time r - last_trigger c st) 2)
     | None => false
     end
  /\ last_trigger c st' =
     (if fired c out then current_time r else last_trigger c st).
Proof.
  rewrite loop_body_step. intro H. injection H as <- <-.
  pose proof (step_channel pt stt c r st) as S.
  pose proof (detect_history (threshold pt stt c) (value c r)
                (current_time r) (history c st) (last_trigger c st)) as Hh.
  pose proof (detect_flag (threshold pt stt c) (value c r)
                (current_time r) (history c st) (last_trigger c st)) as Hf.
  pose proof (detect_last (threshold pt stt c) (value c r)
                (current_time r) (history c st) (last_trigger c st)) as Hl.
  fold (detect_at pt stt c r st) in Hh, Hf, Hl.
  destruct (detect_at pt stt c r st) as [[h l] o].
  cbn [fst snd] in Hh, Hf, Hl.
  destruct S as (S1 & S2 & S3 & _).
  rewrite S1, S2, S3, Hh, Hl, Hf. auto.
Qed.

Lemma loop_body_total (pt stt : Q) (r : reading) (st : state) :
  exists st' out, loop_body pt stt r st = Some (tt, st', out).
Proof.
  rewrite loop_body_step. eauto.
Qed.

(** ** The loop *)

Lemma run_steps (pt stt : Q) (inputs : list reading) :
  forall st, run pt stt st inputs = Some (steps pt stt st inputs).
Proof.
  induction inputs as [|r rest IH]; intro st; [reflexivity|].
  cbn [run steps]. rewrite loop_body_step.
  destruct (step pt stt r st) as [st1 out]. cbn [fst snd].
  rewrite IH. destruct (steps pt stt st1 rest). reflexivity.
Qed.

Lemma run_total (pt stt : Q) (st : state) (inputs : list reading) :
  exists st' outs, run pt stt st inputs = Some (st', outs).
Proof.
  rewrite run_steps. destruct (steps pt stt st inputs). eauto.
Qed.

Lemma run_cons (pt stt : Q) (st st' : state) (r : reading)
    (rest : list reading) (outs : list (list event)) :
  run pt stt st (r :: rest) = Some (st', outs) ->
  exists st1 out outs',
    loop_body pt stt r st = Some (tt, st1, out)
    /\ run pt stt st1 rest = Some (st', outs')
    /\ outs = out :: outs'.
Proof.
  cbn [run].
  destruct (loop_body pt stt r st) as [[[[] st1] out]|]; [|discriminate].
  destruct (run pt stt st1 rest) as [[st2 outs']|] eqn:E; [|discriminate].
  intro H. injection H as <- <-. exists st1, out, outs'. auto.
Qed.

Lemma run_length (pt stt : Q) (inputs : list reading) :
  forall st st' outs,
    run pt stt st inputs = Some (st', outs) -> length outs = length inputs.
Proof.
  induction inputs as [|r rest IH]; intros st st' outs H.
  - injection H as <- <-. reflexivity.
  - apply run_cons in H. destruct H as (st1 & out & outs' & _ & H & ->).
    cbn [length]. f_equal. eapply IH, H.
Qed.

(** ** Debounce *)

Lemma fired_true (pt stt : Q) (c : channel) (r : reading)
    (st st' : state) (out : list event) :
  loop_body pt stt r st = Some (tt, st', out) ->
  fired c out = true ->
  exists v,
    value c r = Some v
    /\ (3 < length (history c st ++ [v]))%nat
    /\ threshold pt stt c
       < v - baseline_value (history c st ++ [v]) default_window_size
    /\ 2 < current_time r - last_trigger c st
    /\ last_trigger c st' = current_time r.
Proof.
  intros H F.
  destruct (loop_body_channel pt stt c r st st' out H) as (_ & Hf & Hl).
  rewrite F in Hf, Hl.
  destruct (value c r) as [v|]; [|discriminate].
  symmetry in Hf.
  apply andb_true_iff in Hf. destruct Hf as [Ha Hf].
  apply andb_true_iff in Hf. destruct Hf as [Ht Hc].
  exists v. repeat split; auto.
  - now apply Nat.ltb_lt.
  - now apply gt_iff.
  - now apply gt_iff.
Qed.

Lemma fired_false (pt stt : Q) (c : channel) (r : reading)
    (st st' : state) (out : list event) :
  loop_body pt stt r st = Some (tt, st', out) ->
  fired c out = false ->
  last_trigger c st' = last_trigger c st.
Proof.
  intros H F.
  destruct (loop_body_channel pt stt c r st st' out H) as (_ & _ & Hl).
  now rewrite F in Hl.
Qed.

(** Every fire of a run comes more than two seconds after the trigger
    time the run started with. *)
Lemma fire_after_last (pt stt : Q) (c : channel) (inputs : list reading) :
  forall st st' outs j rj oj,
    run pt stt st inputs = Some (st', outs) ->
    nth_error inputs j = Some rj ->
    nth_error outs j = Some oj ->
    fired c oj = true ->
    last_trigger c st + 2 < current_time rj.
Proof.
  induction inputs as [|r rest IH]; intros st st' outs j rj oj Hrun Hj Ho F.
  - destruct j; discriminate.
  - apply run_cons in Hrun.
    destruct Hrun as (st1 & out & outs' & Hb & Hrest & ->).
    destruct j as [|j]; cbn [nth_error] in Hj, Ho.
    + injection Hj as <-. injection Ho as <-.
      destruct (fired_true _ _ _ _ _ _ _ Hb F) as (v & _ & _ & _ & Hc & _).
      lra.
    + pose proof (IH st1 st' outs' j rj oj Hrest Hj Ho F) as Hlater.
      destruct (fired c out) eqn:F0.
      * destruct (fired_true _ _ _ _ _ _ _ Hb F0)
          as (v & _ & _ & _ & Hc & Hl).
        rewrite Hl in Hlater. lra.
      * rewrite (fired_false _ _ _ _ _ _ _ Hb F0) in Hlater. exact Hlater.
Qed.

(** C1.  In any run of the loop, from any state, two iterations that
    fire the same channel have timestamps more than 2.0 apart (hence at
    least the cooldown apart: at most one fire per channel per cooldown
    interval); and the comparison with the cooldown is strict: an
    iteration whose elapsed time since the last trigger equals 2.0 does
    not fire. *)
Theorem fires_separated_by_cooldown (pt stt : Q) (c : channel)
    (st st' : state) (inputs : list reading) (outs : list (list event))
    (i j : nat) (ri rj : reading) (oi oj : list event) :
  run pt stt st inputs = Some (st', outs) ->
  (i < j)%nat ->
  nth_error inputs i = Some ri -> nth_error outs i = Some oi ->
  nth_error inputs j = Some rj -> nth_error outs j = Some oj ->
  fired c oi = true -> fired c oj = true ->
  2 < current_time rj - current_time ri
  /\ (forall r0 st0 st1 out0,
         loop_body pt stt r0 st0 = Some (tt, st1, out0) ->
         current_time r0 - last_trigger c st0 == 2 ->
         fired c out0 = false).
Proof.
  intros Hrun Hij Hi Hoi Hj Hoj Fi Fj. split.
  - revert st st' outs i j Hrun Hij Hi Hoi Hj Hoj.
    induction inputs as [|r rest IH];
      intros st st' outs i j Hrun Hij Hi Hoi Hj Hoj.
    + destruct i; discriminate.
    + apply run_cons in Hrun.
      destruct Hrun as (st1 & out & outs' & Hb & Hrest & ->).
      destruct j as [|j]; [lia|].
      cbn [nth_error] in Hj, Hoj.
      destruct i as [|i]; cbn [nth_error] in Hi, Hoi.
      * injection Hi as <-. injection Hoi as <-.
        destruct (fired_true _ _ _ _ _ _ _ Hb Fi)
          as (v & _ & _ & _ & _ & Hl).
        pose proof (fire_after_last pt stt c rest st1 st' outs' j rj oj
                      Hrest Hj Hoj Fj) as Hlater.
        rewrite Hl in Hlater. lra.
      * apply (IH st1 st' outs' i j Hrest); auto. lia.
  - intros r0 st0 st1 out0 Hb Heq.
    destruct (fired c out0) eqn:F0; [|reflexivity].
    destruct (fired_true _ _ _ _ _ _ _ Hb F0) as (v & _ & _ & _ & Hc & _).
    rewrite Heq in Hc. exfalso. exact (Qlt_irrefl _ Hc).
Qed.

Lemma fires_separated_by_cooldown_witness :
  2 < 13 - 10
  /\ (forall r0 st0 st1 out0,
         loop_body 15 2 r0 st0 = Some (tt, st1, out0) ->
         current_time r0 - last_trigger Photo st0 == 2 ->
         fired Photo out0 = false).
Proof.
  eapply (fires_separated_by_cooldown 15 2 Photo init_state _
            [reading_of Photo 50 1; reading_of Photo 50 2;
             reading_of Photo 50 3; reading_of Photo 50 4;
             reading_of Photo 80 10; reading_of Photo 50 11;
             reading_of Photo 200 13]
            _ 4 6 (reading_of Photo 80 10) (reading_of Photo 200 13)).
  - vm_compute. reflexivity.
  - lia.
  - reflexivity.
  - reflexivity.
  - reflexivity.
  - reflexivity.
  - reflexivity.
  - reflexivity.
Defined.

(** ** The history and the window *)

Lemma samples_app (c : channel) (l1 l2 : list reading) :
  samples c (l1 ++ l2) = samples c l1 ++ samples c l2.
Proof.
  apply flat_map_app.
Qed.

Lemma samples_cons (c : channel) (r : reading) (l : list reading) :
  samples c (r :: l) =
  match value c r with
  | Some v => v :: samples c l
  | None => samples c l
  end.
Proof.
  unfold samples. cbn [flat_map]. destruct (value c r); reflexivity.
Qed.

(** The history is only ever appended to. *)
Lemma run_history (pt stt : Q) (c : channel) (inputs : list reading) :
  forall st st' outs,
    run pt stt st inputs = Some (st', outs) ->
    history c st' = history c st ++ samples c inputs.
Proof.
  induction inputs as [|r rest IH]; intros st st' outs Hrun.
  - injection Hrun as <- <-. cbn. now rewrite app_nil_r.
  - apply run_cons in Hrun.
    destruct Hrun as (st1 & out & outs' & Hb & Hrest & ->).
    rewrite (IH _ _ _ Hrest), samples_cons.
    destruct (loop_body_channel pt stt c r st st1 out Hb) as (Hh & _).
    rewrite Hh. destruct (value c r); [|reflexivity].
    now rewrite <- app_assoc.
Qed.

Lemma slice_last_length {A : Type} (l : list A) (w : nat) :
  (1 <= w)%nat -> length (Py.slice_last l w) = Nat.min w (length l).
Proof.
  intro Hw. unfold Py.slice_last. destruct w as [|w]; [lia|].
  rewrite length_skipn. lia.
Qed.

Lemma slice_last_suffix {A : Type} (l : list A) (w : nat) :
  exists older, l = older ++ Py.slice_last l w.
Proof.
  unfold Py.slice_last. destruct w as [|w].
  - exists []. reflexivity.
  - exists (firstn (length l - S w) l). now rewrite firstn_skipn.
Qed.

(** C2, as stated, fails: the program never evicts.  After eleven
    samples on the photo channel its history holds eleven values, more
    than the window size of ten. *)
Lemma history_bound_counterexample :
  exists st' outs,
    read_arduino_data 15 2 (repeat (reading_of Photo 50 0) 11)
      = Some (st', outs)
    /\ length (history Photo st') = 11%nat
    /\ ~ (length (history Photo st') <= default_window_size)%nat
    /\ length (history Photo st') <> default_window_size.
Proof.
  destruct (run_total 15 2 init_state (repeat (reading_of Photo 50 0) 11))
    as (st' & outs & Hrun).
  exists st', outs. split; [exact Hrun|].
  rewrite (run_history _ _ Photo _ _ _ _ Hrun).
  cbn. unfold default_window_size. repeat split; lia.
Qed.

(** C2, amended.  The history of a channel is append-only and never
    evicted: after a run it is the history the run started with followed
    by every sample ingested on the channel, in arrival order.  The
    window the baseline averages (the slice [values[-10:]]) holds at most
    ten values, exactly ten once the history holds at least ten, and is
    the newest end of the history: the oldest values are the ones left
    out. *)
Theorem history_append_only_window_bounded (pt stt : Q) (c : channel)
    (st st' : state) (inputs : list reading) (outs : list (list event)) :
  run pt stt st inputs = Some (st', outs) ->
  history c st' = history c st ++ samples c inputs
  /\ length (Py.slice_last (history c st') default_window_size)
     = Nat.min default_window_size (length (history c st'))
  /\ ((default_window_size <= length (history c st'))%nat ->
      length (Py.slice_last (history c st') default_window_size)
      = default_window_size)
  /\ exists older,
       history c st'
       = older ++ Py.slice_last (history c st') default_window_size.
Proof.
  intro Hrun. split; [exact (run_history _ _ _ _ _ _ _ Hrun)|].
  assert (Hlen := slice_last_length (history c st') default_window_size).
  unfold default_window_size in *.
  split; [apply Hlen; lia|].
  split; [intro H; rewrite Hlen; lia|].
  apply slice_last_suffix.
Qed.

Lemma history_append_only_window_bounded_witness :
  let st' := {| last_stress_trigger := 0;
                last_sound_trigger := 0;
                photo_history := repeat 50 11;
                sound_history := [] |} in
  history Photo st'
  = history Photo init_state
    ++ samples Photo (repeat (reading_of Photo 50 0) 11)
  /\ length (Py.slice_last (history Photo st') default_window_size)
     = Nat.min default_window_size (length (history Photo st'))
  /\ ((default_window_size <= length (history Photo st'))%nat ->
      length (Py.slice_last (history Photo st') default_window_size)
      = default_window_size)
  /\ exists older,
       history Photo st'
       = older ++ Py.slice_last (history Photo st') default_window_size.
Proof.
  intro st'.
  eapply (history_append_only_window_bounded 15 2 Photo init_state st'
            (repeat (reading_of Photo 50 0) 11) _).
  vm_compute. reflexivity.
Defined.

(** ** The baseline is the mean of the window *)

Lemma fold_left_Qplus (l : list Q) :
  forall a, fold_left Qplus l a == a + fold_right Qplus 0 l.
Proof.
  induction l as [|x l IH]; intro a; cbn [fold_left fold_right].
  - ring.
  - rewrite IH. ring.
Qed.

Lemma sum_fold_right (l : list Q) : Py.sum l == fold_right Qplus 0 l.
Proof.
  unfold Py.sum. rewrite fold_left_Qplus. ring.
Qed.

Lemma slice_last_most_recent (l : list Q) (w : nat) :
  (1 <= w)%nat -> Py.slice_last l w = Spec.most_recent w l.
Proof.
  intro Hw. unfold Py.slice_last, Spec.most_recent.
  destruct w as [|w]; [lia|].
  now rewrite firstn_rev, rev_involutive.
Qed.

Lemma baseline_value_spec (values : list Q) (w : nat) :
  values <> [] -> (1 <= w)%nat ->
  baseline_value values w == Spec.baseline w values.
Proof.
  intros Hne Hw. unfold baseline_value, Spec.baseline, Spec.mean.
  destruct (length values <? w)%nat eqn:E.
  - destruct values as [|x xs]; [congruence|].
    rewrite sum_fold_right. reflexivity.
  - apply Nat.ltb_ge in E.
    rewrite <- slice_last_most_recent by exact Hw.
    rewrite slice_last_length by exact Hw.
    rewrite Nat.min_l by exact E.
    rewrite sum_fold_right. reflexivity.
Qed.

Lemma loop_body_reports (pt stt : Q) (c : channel) (r : reading)
    (st st' : state) (out : list event) :
  loop_body pt stt r st = Some (tt, st', out) ->
  reports c out =
  match value c r with
  | Some v =>
      if (3 <? length (history c st ++ [v]))%nat then
        [(v, baseline_value (history c st ++ [v]) default_window_size,
          v - baseline_value (history c st ++ [v]) default_window_size)]
      else []
  | None => []
  end.
Proof.
  rewrite loop_body_step. intro H. injection H as <- <-.
  pose proof (step_channel pt stt c r st) as S.
  unfold detect_at, detect in S.
  destruct (value c r) as [v|].
  - destruct (3 <? length (history c st ++ [v]))%nat;
      destruct S as (_ & _ & _ & S); exact S.
  - destruct S as (_ & _ & _ & S); exact S.
Qed.

(** C3.  For a non-empty history and a window size of at least one,
    [calculate_baseline] returns the arithmetic mean of all samples when
    fewer than [window_size] are present, else the arithmetic mean of the
    most recent [window_size] samples.  With the window size of ten, an
    iteration that appends 25 to the history [10, 10, 10, 10] reports
    the baseline 13 and the increase 12. *)
Theorem baseline_is_window_mean (values : list Q) (w : nat) :
  values <> [] -> (1 <= w)%nat ->
  (exists b,
      calculate_baseline values w = Some b
      /\ b == Spec.baseline w values
      /\ ((length values < w)%nat -> b == Spec.mean values)
      /\ ((w <= length values)%nat ->
          b == Spec.mean (Spec.most_recent w values)))
  /\ (forall pt stt c st r,
         history c st = [10; 10; 10; 10] -> value c r = Some 25 ->
         exists st' out b d,
           loop_body pt stt r st = Some (tt, st', out)
           /\ history c st' = [10; 10; 10; 10; 25]
           /\ calculate_baseline (history c st') default_window_size
              = Some b
           /\ reports c out = [(25, b, d)]
           /\ b == 13 /\ d == 12).
Proof.
  intros Hne Hw. split.
  - exists (baseline_value values w).
    split; [apply calculate_baseline_value; lia|].
    pose proof (baseline_value_spec values w Hne Hw) as Hb.
    split; [exact Hb|].
    unfold Spec.baseline in Hb. split; intro H.
    + apply Nat.ltb_lt in H. now rewrite H in Hb.
    + apply Nat.ltb_ge in H. now rewrite H in Hb.
  - intros pt stt c st r Hh Hv.
    destruct (loop_body_total pt stt r st) as (st' & out & Hb).
    destruct (loop_body_channel pt stt c r st st' out Hb) as (Hh' & _).
    pose proof (loop_body_reports pt stt c r st st' out Hb) as Hr.
    rewrite Hv, Hh in Hh', Hr. cbn [app length Nat.ltb Nat.leb] in Hh', Hr.
    exists st', out, (baseline_value [10; 10; 10; 10; 25] default_window_size),
      (25 - baseline_value [10; 10; 10; 10; 25] default_window_size).
    split; [exact Hb|]. split; [exact Hh'|].
    split; [rewrite Hh'; apply calculate_baseline_value;
            unfold default_window_size; lia|].
    split; [exact Hr|].
    split; vm_compute; reflexivity.
Qed.

Lemma baseline_is_window_mean_witness :
  exists b,
    calculate_baseline [10; 10; 10; 10; 25] 10 = Some b
    /\ b == Spec.baseline 10 [10; 10; 10; 10; 25]
    /\ ((length [10; 10; 10; 10; 25] < 10)%nat ->
        b == Spec.mean [10; 10; 10; 10; 25])
    /\ ((10 <= length [10; 10; 10; 10; 25])%nat ->
        b == Spec.mean (Spec.most_recent 10 [10; 10; 10; 10; 25])).
Proof.
  apply (baseline_is_window_mean [10; 10; 10; 10; 25] 10).
  - discriminate.
  - lia.
Defined.

(** ** Arming *)

Lemma not_armed_not_fired (pt stt : Q) (c : channel) (r : reading)
    (st st' : state) (out : list event) :
  loop_body pt stt r st = Some (tt, st', out) ->
  (forall v, value c r = Some v ->
             (length (history c st ++ [v]) <= 3)%nat) ->
  fired c out = false.
Proof.
  intros Hb Hlen.
  destruct (loop_body_channel pt stt c r st st' out Hb) as (_ & Hf & _).
  rewrite Hf. destruct (value c r) as [v|]; [|reflexivity].
  specialize (Hlen v eq_refl). apply Nat.ltb_ge in Hlen.
  now rewrite Hlen.
Qed.

Lemma warm_up_run (pt stt : Q) (c : channel) (inputs : list reading) :
  forall st st' outs k out,
    run pt stt st inputs = Some (st', outs) ->
    nth_error outs k = Some out ->
    (length (history c st ++ samples c (firstn (S k) inputs)) <= 3)%nat ->
    fired c out = false.
Proof.
  induction inputs as [|r rest IH]; intros st st' outs k out Hrun Hk Hlen.
  - injection Hrun as <- <-. destruct k; discriminate.
  - apply run_cons in Hrun.
    destruct Hrun as (st1 & o & outs' & Hb & Hrest & ->).
    cbn [firstn] in Hlen. rewrite samples_cons in Hlen.
    destruct k as [|k]; cbn [nth_error] in Hk.
    + injection Hk as <-.
      apply (not_armed_not_fired pt stt c r st st1 o Hb).
      intros v Hv. rewrite Hv in Hlen. cbn [firstn samples flat_map] in Hlen.
      exact Hlen.
    + apply (IH st1 st' outs' k out Hrest Hk).
      destruct (loop_body_channel pt stt c r st st1 o Hb) as (Hh & _).
      rewrite Hh. destruct (value c r) as [v|]; [|exact Hlen].
      rewrite <- app_assoc. exact Hlen.
Qed.

(** C4.  Whenever the length of a channel's history after appending is
    at most 3, the iteration does not fire that channel, whatever the
    value, and the value is recorded in the history all the same.  In
    particular, in a run from the initial state no iteration up to and
    including the one that brings a channel's third sample fires that
    channel, and the history holds every sample ingested. *)
Theorem warm_up_never_fires (pt stt : Q) (c : channel) :
  (forall st r v,
      value c r = Some v ->
      (length (history c st ++ [v]) <= 3)%nat ->
      exists st' out,
        loop_body pt stt r st = Some (tt, st', out)
        /\ fired c out = false
        /\ history c st' = history c st ++ [v])
  /\ (forall inputs k,
         (length (samples c (firstn (S k) inputs)) <= 3)%nat ->
         exists st' outs,
           read_arduino_data pt stt inputs = Some (st', outs)
           /\ history c st' = samples c inputs
           /\ forall out, nth_error outs k = Some out ->
                          fired c out = false).
Proof.
  split.
  - intros st r v Hv Hlen.
    destruct (loop_body_total pt stt r st) as (st' & out & Hb).
    exists st', out. split; [exact Hb|]. split.
    + apply (not_armed_not_fired pt stt c r st st' out Hb).
      intros v' Hv'. congruence.
    + destruct (loop_body_channel pt stt c r st st' out Hb) as (Hh & _).
      now rewrite Hv in Hh.
  - intros inputs k Hlen.
    destruct (run_total pt stt init_state inputs) as (st' & outs & Hrun).
    exists st', outs. split; [exact Hrun|]. split.
    + rewrite (run_history pt stt c inputs _ _ _ Hrun).
      destruct c; reflexivity.
    + intros out Hk.
      apply (warm_up_run pt stt c inputs init_state st' outs k out Hrun Hk).
      destruct c; exact Hlen.
Qed.

Lemma warm_up_never_fires_witness :
  exists st' out,
    loop_body 15 2 (reading_of Photo 1000 100)
      {| last_stress_trigger := 0; last_sound_trigger := 0;
         photo_history := [1; 1]; sound_history := [] |}
    = Some (tt, st', out)
    /\ fired Photo out = false
    /\ history Photo st' = [1; 1] ++ [1000].
Proof.
  apply (proj1 (warm_up_never_fires 15 2 Photo)
           {| last_stress_trigger := 0; last_sound_trigger := 0;
              photo_history := [1; 1]; sound_history := [] |}
           (reading_of Photo 1000 100) 1000).
  - reflexivity.
  - simpl. lia.
Defined.

(** ** The trigger time *)

Lemma baseline_call_value (values : list Q) (b : Q) :
  calculate_baseline values default_window_size = Some b ->
  b = baseline_value values default_window_size.
Proof.
  rewrite calculate_baseline_value by (unfold default_window_size; lia).
  congruence.
Qed.

(** A run without a fire leaves the trigger time as it was. *)
Lemma quiet_run_last_trigger (pt stt : Q) (c : channel)
    (inputs : list reading) :
  forall st st' outs,
    run pt stt st inputs = Some (st', outs) ->
    (forall o, In o outs -> fired c o = false) ->
    last_trigger c st' = last_trigger c st.
Proof.
  induction inputs as [|r rest IH]; intros st st' outs Hrun Hq.
  - now injection Hrun as <- <-.
  - apply run_cons in Hrun.
    destruct Hrun as (st1 & out & outs' & Hb & Hrest & ->).
    rewrite (IH st1 st' outs' Hrest).
    + apply (fired_false pt stt c r st st1 out Hb). apply Hq. now left.
    + intros o Ho. apply Hq. now right.
Qed.

Lemma armed_fires_iff (pt stt : Q) (c : channel) (r : reading)
    (st st' : state) (out : list event) (v b : Q) :
  loop_body pt stt r st = Some (tt, st', out) ->
  value c r = Some v ->
  (3 < length (history c st ++ [v]))%nat ->
  calculate_baseline (history c st ++ [v]) default_window_size = Some b ->
  fired c out = true
  <-> threshold pt stt c < v - b
      /\ 2 < current_time r - last_trigger c st.
Proof.
  intros Hb Hv Ha Hc. apply baseline_call_value in Hc. subst b.
  destruct (loop_body_channel pt stt c r st st' out Hb) as (_ & Hf & _).
  rewrite Hf, Hv. apply Nat.ltb_lt in Ha. rewrite Ha. cbn [andb].
  rewrite andb_true_iff, !gt_iff. reflexivity.
Qed.

(** C5, as stated, fails: the trigger time starts at 0, not at minus
    infinity.  An armed photo channel that never fired sees the value 100
    after three zeros (increase 75, threshold 15) at timestamp 1 and does
    not fire. *)
Lemma never_fired_small_timestamp_counterexample :
  ~ (forall pt stt c inputs st outs r v b,
        read_arduino_data pt stt inputs = Some (st, outs) ->
        (forall o, In o outs -> fired c o = false) ->
        value c r = Some v ->
        (3 < length (history c st ++ [v]))%nat ->
        calculate_baseline (history c st ++ [v]) default_window_size
          = Some b ->
        threshold pt stt c < v - b ->
        exists st' out,
          loop_body pt stt r st = Some (tt, st', out)
          /\ fired c out = true).
Proof.
  intro H.
  assert (Hrun : read_arduino_data 15 2 (repeat (reading_of Photo 0 0) 3)
                 = Some ({| last_stress_trigger := 0;
                            last_sound_trigger := 0;
                            photo_history := [0; 0; 0];
                            sound_history := [] |}, [[]; []; []]))
    by (vm_compute; reflexivity).
  destruct (H 15 2 Photo _ _ _ (reading_of Photo 100 1) 100
              (baseline_value [0; 0; 0; 100] default_window_size) Hrun)
    as (st' & out & Hb & F).
  - intros o [<-|[<-|[<-|[]]]]; reflexivity.
  - reflexivity.
  - cbn. lia.
  - apply calculate_baseline_value. unfold default_window_size. lia.
  - vm_compute. reflexivity.
  - vm_compute in Hb. injection Hb as <- <-. discriminate F.
Qed.

(** C5, amended.  The trigger time of a channel is initially 0 and
    changes only in an iteration that fires the channel, which sets it to
    that iteration's timestamp.  Consequently, for an armed channel that
    has never fired, the cooldown condition holds exactly at the
    timestamps greater than 2.0: a threshold-exceeding increase on such a
    channel fires if and only if its timestamp is greater than 2.0. *)
Theorem trigger_time_starts_at_zero (pt stt : Q) (c : channel) :
  last_trigger c init_state = 0
  /\ (forall st r st' out,
         loop_body pt stt r st = Some (tt, st', out) ->
         last_trigger c st'
         = if fired c out then current_time r else last_trigger c st)
  /\ (forall inputs st outs r v b,
         read_arduino_data pt stt inputs = Some (st, outs) ->
         (forall o, In o outs -> fired c o = false) ->
         value c r = Some v ->
         (3 < length (history c st ++ [v]))%nat ->
         calculate_baseline (history c st ++ [v]) default_window_size
           = Some b ->
         threshold pt stt c < v - b ->
         exists st' out,
           loop_body pt stt r st = Some (tt, st', out)
           /\ (fired c out = true <-> 2 < current_time r)).
Proof.
  split; [destruct c; reflexivity|]. split.
  - intros st r st' out Hb.
    now destruct (loop_body_channel pt stt c r st st' out Hb) as (_ & _ & Hl).
  - intros inputs st outs r v b Hrun Hq Hv Ha Hc Ht.
    destruct (loop_body_total pt stt r st) as (st' & out & Hb).
    exists st', out. split; [exact Hb|].
    rewrite (armed_fires_iff pt stt c r st st' out v b Hb Hv Ha Hc).
    rewrite (quiet_run_last_trigger pt stt c inputs _ _ _ Hrun Hq).
    assert (last_trigger c init_state = 0) as -> by (destruct c; reflexivity).
    split.
    + intros [_ H]. lra.
    + intro H. split; [exact Ht | lra].
Qed.

Lemma trigger_time_starts_at_zero_witness :
  exists st' out,
    loop_body 15 2 (reading_of Photo 100 5)
      {| last_stress_trigger := 0; last_sound_trigger := 0;
         photo_history := [0; 0; 0]; sound_history := [] |}
    = Some (tt, st', out)
    /\ (fired Photo out = true <-> 2 < current_time (reading_of Photo 100 5)).
Proof.
  eapply (proj2 (proj2 (trigger_time_starts_at_zero 15 2 Photo))
            (repeat (reading_of Photo 0 0) 3) _ [[]; []; []]
            (reading_of Photo 100 5) 100 (100 # 4)).
  - vm_compute. reflexivity.
  - intros o [<-|[<-|[<-|[]]]]; reflexivity.
  - reflexivity.
  - cbn. lia.
  - vm_compute. reflexivity.
  - vm_compute. reflexivity.
Defined.

(** ** The threshold test *)

(** C6.  For an armed channel whose cooldown condition holds, the
    iteration fires exactly when the increase is strictly greater than
    the threshold: an increase equal to the threshold does not fire, any
    greater increase does. *)
Theorem threshold_comparison_strict (pt stt : Q) (c : channel)
    (st : state) (r : reading) (v b : Q) :
  value c r = Some v ->
  (3 < length (history c st ++ [v]))%nat ->
  2 < current_time r - last_trigger c st ->
  calculate_baseline (history c st ++ [v]) default_window_size = Some b ->
  exists st' out,
    loop_body pt stt r st = Some (tt, st', out)
    /\ (v - b == threshold pt stt c -> fired c out = false)
    /\ (forall eps, 0 < eps -> v - b == threshold pt stt c + eps ->
                    fired c out = true)
    /\ (fired c out = true <-> threshold pt stt c < v - b).
Proof.
  intros Hv Ha Hcool Hc.
  destruct (loop_body_total pt stt r st) as (st' & out & Hb).
  exists st', out. split; [exact Hb|].
  pose proof (armed_fires_iff pt stt c r st st' out v b Hb Hv Ha Hc) as Hiff.
  assert (Hthr : fired c out = true <-> threshold pt stt c < v - b).
  { rewrite Hiff. split; [intros [H _]; exact H | intro H; split; assumption]. }
  repeat split.
  - intro Heq. destruct (fired c out); [|reflexivity].
    assert (H : threshold pt stt c < v - b) by now apply Hthr.
    rewrite Heq in H. exfalso. exact (Qlt_irrefl _ H).
  - intros eps Heps Heq. apply Hthr. rewrite Heq. lra.
  - apply Hthr.
  - apply Hthr.
Qed.

Lemma threshold_comparison_strict_witness :
  exists st' out,
    loop_body 15 2 (reading_of Photo 30 10)
      {| last_stress_trigger := 0; last_sound_trigger := 0;
         photo_history := [10; 10; 10]; sound_history := [] |}
    = Some (tt, st', out)
    /\ (30 - (60 # 4) == threshold 15 2 Photo -> fired Photo out = false)
    /\ (forall eps, 0 < eps -> 30 - (60 # 4) == threshold 15 2 Photo + eps ->
                    fired Photo out = true)
    /\ (fired Photo out = true <-> threshold 15 2 Photo < 30 - (60 # 4)).
Proof.
  apply (threshold_comparison_strict 15 2 Photo
           {| last_stress_trigger := 0; last_sound_trigger := 0;
              photo_history := [10; 10; 10]; sound_history := [] |}
           (reading_of Photo 30 10) 30 (60 # 4)).
  - reflexivity.
  - cbn. lia.
  - vm_compute. reflexivity.
  - vm_compute. reflexivity.
Defined.

(** ** The end-to-end scenario *)

Lemma run_app (pt stt : Q) (l1 l2 : list reading) :
  forall st st1 st2 o1 o2,
    run pt stt st l1 = Some (st1, o1) ->
    run pt stt st1 l2 = Some (st2, o2) ->
    run pt stt st (l1 ++ l2) = Some (st2, o1 ++ o2).
Proof.
  induction l1 as [|r rest IH]; intros st st1 st2 o1 o2 H1 H2.
  - injection H1 as <- <-. exact H2.
  - apply run_cons in H1.
    destruct H1 as (sa & out & outs' & Hb & Hrest & ->).
    cbn [app run]. rewrite Hb.
    now rewrite (IH sa st1 st2 outs' o2 Hrest H2).
Qed.

(** C7, as stated, fails.  At the timestamps 0, 0.1, ..., 0.6 the
    seventh ingest does not fire: the trigger time starts at 0 and
    0.6 - 0 is not greater than 2.0.  And the increase the program
    computes there is 180/7, not 30, since its baseline includes the 80
    sample. *)
Lemma scenario_counterexample :
  exists st' outs out7 b d,
    read_arduino_data 15 2 (scenario scenario_times) = Some (st', outs)
    /\ nth_error outs 6 = Some out7
    /\ reports Photo out7 = [(80, b, d)]
    /\ fired Photo out7 = false
    /\ ~ d == 30.
Proof.
  destruct (run_total 15 2 init_state (scenario scenario_times))
    as (st' & outs & Hrun).
  pose proof Hrun as Hnf. vm_compute in Hnf. injection Hnf as Hst Houts.
  subst st' outs.
  do 5 eexists. split; [exact Hrun|]. split; [reflexivity|].
  split; [reflexivity|]. split; [reflexivity|].
  vm_compute. discriminate.
Qed.

(** C7, amended.  With the program's constants (window 10, arming
    after 3, cooldown 2.0) and the photo threshold 15, feeding the photo
    channel the values 50, 50, 50, 50, 50, 50, 80 from the initial state,
    at any timestamps, fires nothing in the first six iterations.  The
    mean of the six samples before the 80 sample is 50; in the seventh
    iteration the baseline, which includes the 80 sample, is 380/7 and
    the increase is 180/7, greater than 15; and the seventh iteration
    fires if and only if its timestamp is greater than 2.0, so it does
    not fire at timestamp 0.6. *)
Theorem scenario_outcome (stt t1 t2 t3 t4 t5 t6 t7 : Q) :
  exists st' outs out7 b d,
    read_arduino_data 15 stt (scenario [t1; t2; t3; t4; t5; t6; t7])
      = Some (st', outs)
    /\ map (fired Photo) (firstn 6 outs)
       = [false; false; false; false; false; false]
    /\ nth_error outs 6 = Some out7
    /\ Spec.mean (firstn 6 scenario_values) == 50
    /\ reports Photo out7 = [(80, b, d)]
    /\ b == 380 # 7
    /\ d == 180 # 7
    /\ 15 < d
    /\ (fired Photo out7 = true <-> 2 < t7)
    /\ ~ 2 < nth 6 scenario_times 0.
Proof.
  destruct (run_total 15 stt init_state
              (scenario [t1; t2; t3; t4; t5; t6]))
    as (st6 & outs6 & H6).
  pose proof H6 as Hnf. vm_compute in Hnf. injection Hnf as Hst Houts.
  destruct (loop_body_total 15 stt (reading_of Photo 80 t7) st6)
    as (st' & out7 & Hb).
  assert (Hv : value Photo (reading_of Photo 80 t7) = Some 80)
    by reflexivity.
  pose proof (loop_body_reports 15 stt Photo _ _ _ _ Hb) as Hr.
  destruct (loop_body_channel 15 stt Photo _ _ _ _ Hb) as (_ & Hf & _).
  rewrite Hv in Hr, Hf. subst st6.
  cbn [history photo_history last_trigger last_stress_trigger app length
       Nat.ltb Nat.leb andb threshold] in Hr, Hf.
  exists st', (outs6 ++ [out7]), out7.
  do 2 eexists.
  split.
  { apply (run_app 15 stt (scenario [t1; t2; t3; t4; t5; t6])
             [reading_of Photo 80 t7] _ _ _ _ _ H6).
    cbn [run]. now rewrite Hb. }
  subst outs6.
  split; [reflexivity|]. split; [reflexivity|].
  split; [vm_compute; reflexivity|].
  split; [exact Hr|].
  split; [vm_compute; reflexivity|].
  split; [vm_compute; reflexivity|].
  split; [vm_compute; reflexivity|].
  split.
  - rewrite Hf.
    assert (Py.gt (80 - baseline_value [50; 50; 50; 50; 50; 50; 80]
                                       default_window_size) 15 = true)
      as -> by (vm_compute; reflexivity).
    change (current_time (reading_of Photo 80 t7)) with t7.
    cbn [andb]. rewrite gt_iff. split; intro H; lra.
  - vm_compute. discriminate.
Qed.

(** The same values ten seconds later: the seventh iteration fires. *)
Example scenario_fires_after_cooldown :
  exists st' outs,
    read_arduino_data 15 2
      (scenario [10; 101 # 10; 102 # 10; 103 # 10; 104 # 10; 105 # 10;
                 106 # 10])
    = Some (st', outs)
    /\ map (fired Photo) outs
       = [false; false; false; false; false; false; true]
    /\ last_trigger Photo st' = 106 # 10.
Proof.
  eexists. eexists. split; [vm_compute; reflexivity|].
  split; reflexivity.
Qed.

(** ** Channel independence *)

Lemma set_channel_other (a b : channel) (h : list Q) (l : Q) (st : state) :
  a <> b ->
  history b (set_channel a h l st) = history b st
  /\ last_trigger b (set_channel a h l st) = last_trigger b st.
Proof.
  intro Hab. destruct a, b; try congruence; split; reflexivity.
Qed.

Lemma set_value_other (a b : channel) (sample : option Q) (r : reading) :
  a <> b ->
  value b (set_value a sample r) = value b r
  /\ current_time (set_value a sample r) = current_time r.
Proof.
  intro Hab. destruct a, b; try congruence; split; reflexivity.
Qed.

Lemma set_threshold_other (a b : channel) (thr pt stt : Q) :
  a <> b ->
  threshold (fst (set_threshold a thr (pt, stt)))
            (snd (set_threshold a thr (pt, stt))) b
  = threshold pt stt b.
Proof.
  intro Hab. destruct a, b; try congruence; reflexivity.
Qed.

(** C8.  For distinct channels A and B: an iteration that carries no
    sample for B, whatever it ingests or fires on A, leaves B's history,
    B's baseline and B's trigger time unchanged; and, in any iteration,
    what happens to B (its new history, its new trigger time, whether it
    fires, what it reports) is the same whatever A's history, trigger
    time, sample and threshold are. *)
Theorem channel_independence (pt stt : Q) (a b : channel) :
  a <> b ->
  (forall st r st' out,
      loop_body pt stt r st = Some (tt, st', out) ->
      value b r = None ->
      history b st' = history b st
      /\ last_trigger b st' = last_trigger b st
      /\ (forall w, calculate_baseline (history b st') w
                    = calculate_baseline (history b st) w)
      /\ fired b out = false)
  /\ (forall st r h l sample thr,
         exists st1 out1 st2 out2,
           loop_body pt stt r st = Some (tt, st1, out1)
           /\ loop_body (fst (set_threshold a thr (pt, stt)))
                        (snd (set_threshold a thr (pt, stt)))
                        (set_value a sample r) (set_channel a h l st)
              = Some (tt, st2, out2)
           /\ history b st1 = history b st2
           /\ last_trigger b st1 = last_trigger b st2
           /\ fired b out1 = fired b out2
           /\ reports b out1 = reports b out2).
Proof.
  intro Hab. split.
  - intros st r st' out Hb Hv.
    destruct (loop_body_channel pt stt b r st st' out Hb) as (Hh & Hf & Hl).
    rewrite Hv in Hh, Hf. rewrite Hf in Hl.
    repeat split; auto. intro w. now rewrite Hh.
  - intros st r h l sample thr.
    destruct (loop_body_total pt stt r st) as (st1 & out1 & H1).
    destruct (loop_body_total (fst (set_threshold a thr (pt, stt)))
                (snd (set_threshold a thr (pt, stt)))
                (set_value a sample r) (set_channel a h l st))
      as (st2 & out2 & H2).
    exists st1, out1, st2, out2.
    split; [exact H1|]. split; [exact H2|].
    destruct (loop_body_channel _ _ b _ _ _ _ H1) as (Hh1 & Hf1 & Hl1).
    destruct (loop_body_channel _ _ b _ _ _ _ H2) as (Hh2 & Hf2 & Hl2).
    pose proof (loop_body_reports _ _ b _ _ _ _ H1) as Hr1.
    pose proof (loop_body_reports _ _ b _ _ _ _ H2) as Hr2.
    destruct (set_channel_other a b h l st Hab) as (Eh & El).
    destruct (set_value_other a b sample r Hab) as (Ev & Et).
    pose proof (set_threshold_other a b thr pt stt Hab) as Ethr.
    rewrite Eh, Ev in Hh2, Hr2.
    rewrite Eh, El, Ev, Et, Ethr in Hf2.
    rewrite El, Et in Hl2.
    assert (Ef : fired b out1 = fired b out2) by congruence.
    repeat split; try congruence.
    rewrite Hl1, Hl2, Ef. reflexivity.
Qed.

Lemma channel_independence_witness :
  exists st1 out1 st2 out2,
    loop_body 15 2 (reading_of Sound 9 30)
      {| last_stress_trigger := 0; last_sound_trigger := 0;
         photo_history := []; sound_history := [1; 1; 1] |}
    = Some (tt, st1, out1)
    /\ loop_body (fst (set_threshold Photo 100 (15, 2)))
                 (snd (set_threshold Photo 100 (15, 2)))
                 (set_value Photo (Some 999) (reading_of Sound 9 30))
                 (set_channel Photo [1; 2; 3; 4] 7
                    {| last_stress_trigger := 0; last_sound_trigger := 0;
                       photo_history := []; sound_history := [1; 1; 1] |})
       = Some (tt, st2, out2)
    /\ history Sound st1 = history Sound st2
    /\ last_trigger Sound st1 = last_trigger Sound st2
    /\ fired Sound out1 = fired Sound out2
    /\ reports Sound out1 = reports Sound out2.
Proof.
  apply (proj2 (channel_independence 15 2 Photo Sound
                  ltac:(discriminate))).
Defined.

(** ** The baseline is never asked of an empty history *)

Lemma detect_armed (thr : Q) (sample : option Q) (now : Q)
    (h h' : list Q) (last l : Q) (x : Q * Q * bool) :
  detect thr sample now h last = (h', l, Some x) ->
  (3 < length h')%nat.
Proof.
  unfold detect. destruct sample as [v|]; [|discriminate].
  destruct (3 <? length (h ++ [v]))%nat eqn:E; [|discriminate].
  intro H. injection H as <- _ _. now apply Nat.ltb_lt.
Qed.

Lemma step_baseline_calls (pt stt : Q) (r : reading) (st : state)
    (values : list Q) :
  In values (baseline_calls (snd (step pt stt r st))) ->
  (3 < length values)%nat.
Proof.
  unfold step.
  destruct (detect pt _ _ _ _) as [[ph pl] po] eqn:Ep.
  destruct (detect stt _ _ _ _) as [[sh sl] so] eqn:Es.
  cbn [snd]. unfold baseline_calls. rewrite flat_map_app, in_app_iff.
  intros [H|H].
  - destruct po as [[[v b0] f]|]; [|contradiction].
    apply detect_armed in Ep.
    destruct f; cbn in H; destruct H as [<-|[]]; exact Ep.
  - destruct so as [[[v b0] f]|]; [|contradiction].
    apply detect_armed in Es.
    destruct f; cbn in H; destruct H as [<-|[]]; exact Es.
Qed.

(** C9.  Every run of the loop, from any state, returns without raising,
    and every call of [calculate_baseline] it makes is on a history of
    more than three values: the history is never empty there, the
    [else 0] branch for an empty history is not taken, and the call
    returns a number. *)
Theorem baseline_never_on_empty_history (pt stt : Q) (st : state)
    (inputs : list reading) :
  exists st' outs,
    run pt stt st inputs = Some (st', outs)
    /\ forall out values,
         In out outs -> In values (baseline_calls out) ->
         values <> []
         /\ (3 < length values)%nat
         /\ exists b,
              calculate_baseline values default_window_size = Some b.
Proof.
  destruct (run_total pt stt st inputs) as (st' & outs & Hrun).
  exists st', outs. split; [exact Hrun|].
  revert st st' outs Hrun.
  induction inputs as [|r rest IH]; intros st st' outs Hrun out values Ho Hc.
  - injection Hrun as <- <-. contradiction.
  - apply run_cons in Hrun.
    destruct Hrun as (st1 & o & outs' & Hb & Hrest & ->).
    destruct Ho as [<-|Ho]; [|exact (IH st1 st' outs' Hrest out values Ho Hc)].
    rewrite loop_body_step in Hb. injection Hb as _ <-.
    apply step_baseline_calls in Hc.
    split; [intros ->; cbn in Hc; lia|].
    split; [exact Hc|].
    eexists. apply calculate_baseline_value. unfold default_window_size. lia.
Qed.

(** ** The unbounded history against a bounded window *)

Lemma tl_skipn {A : Type} (k : nat) :
  forall l : list A, tl (skipn k l) = skipn (S k) l.
Proof.
  induction k as [|k IH]; intros [|x l]; try reflexivity.
  cbn [skipn]. rewrite IH. destruct l; reflexivity.
Qed.

Lemma push_slice_last (w : nat) (h : list Q) (v : Q) :
  (1 <= w)%nat ->
  Spec.push w (Py.slice_last h w) v = Py.slice_last (h ++ [v]) w.
Proof.
  intro Hw. destruct w as [|w]; [lia|].
  unfold Spec.push, Py.slice_last.
  rewrite length_skipn, length_app. cbn [length].
  destruct (S w <=? length h - (length h - S w))%nat eqn:E.
  - apply Nat.leb_le in E.
    rewrite tl_skipn, skipn_app.
    replace (length h + 1 - S w)%nat with (S (length h - S w)) by lia.
    replace (S (length h - S w) - length h)%nat with 0%nat by lia.
    reflexivity.
  - apply Nat.leb_gt in E.
    replace (length h - S w)%nat with 0%nat by lia.
    replace (length h + 1 - S w)%nat with 0%nat by lia.
    reflexivity.
Qed.

Lemma window_slice_last (w : nat) (values : list Q) :
  (1 <= w)%nat ->
  forall h, Spec.window w (Py.slice_last h w) values
            = Py.slice_last (h ++ values) w.
Proof.
  intro Hw. unfold Spec.window.
  induction values as [|v values IH]; intro h; cbn [fold_left].
  - now rewrite app_nil_r.
  - rewrite push_slice_last by exact Hw. rewrite IH.
    now rewrite <- app_assoc.
Qed.

Lemma baseline_value_window (values : list Q) (w : nat) :
  (1 <= w)%nat -> values <> [] ->
  baseline_value values w == Spec.mean (Py.slice_last values w).
Proof.
  intros Hw Hne. unfold baseline_value, Spec.mean.
  rewrite slice_last_length by exact Hw.
  destruct (length values <? w)%nat eqn:E.
  - apply Nat.ltb_lt in E.
    assert (Hs : Py.slice_last values w = values).
    { unfold Py.slice_last. destruct w as [|w']; [reflexivity|].
      now replace (length values - S w')%nat with 0%nat by lia. }
    rewrite Hs, Nat.min_r by lia.
    destruct values as [|x xs]; [congruence|].
    rewrite sum_fold_right. reflexivity.
  - apply Nat.ltb_ge in E. rewrite Nat.min_l by exact E.
    rewrite sum_fold_right. reflexivity.
Qed.

Lemma ingest_simulates (pt stt : Q) (c : channel) (r : reading)
    (st st1 : state) (out : list event) (v : Q) :
  loop_body pt stt r st = Some (tt, st1, out) ->
  value c r = Some v ->
  let '(ch', d) :=
    Spec.ingest (Spec.program_config (threshold pt stt c))
      (Py.slice_last (history c st) 10, last_trigger c st)
      v (current_time r) in
  ch' = (Py.slice_last (history c st1) 10, last_trigger c st1)
  /\ Spec.agree (decision_of c out) d.
Proof.
  intros Hb Hv.
  destruct (loop_body_channel pt stt c r st st1 out Hb) as (Hh & Hf & Hl).
  pose proof (loop_body_reports pt stt c r st st1 out Hb) as Hr.
  rewrite Hv in Hh, Hf, Hr.
  unfold Spec.ingest, decision_of.
  cbn [Spec.window_size Spec.min_history_before_arming Spec.cfg_threshold
       Spec.cooldown Spec.program_config fst snd].
  rewrite push_slice_last by lia. rewrite <- Hh in *.
  rewrite slice_last_length by lia.
  rewrite Hl, Hr, Hf. unfold default_window_size.
  assert (Hne : history c st1 <> []).
  { rewrite Hh. intro E. apply (f_equal (@length Q)) in E.
    rewrite length_app in E. cbn in E. lia. }
  pose proof (baseline_value_window (history c st1) 10 ltac:(lia) Hne) as Hm.
  destruct (3 <? length (history c st1))%nat eqn:Ea.
  - apply Nat.ltb_lt in Ea.
    replace (Nat.min 10 (length (history c st1)) <=? 3)%nat with false
      by (symmetry; apply Nat.leb_gt; lia).
    cbn [andb].
    rewrite (gt_compat (v - Spec.mean (Py.slice_last (history c st1) 10))
               (v - baseline_value (history c st1) 10)
               (threshold pt stt c) (threshold pt stt c))
      by (try rewrite Hm; reflexivity).
    destruct (Py.gt (v - baseline_value (history c st1) 10)
                    (threshold pt stt c)
              && Py.gt (current_time r - last_trigger c st) 2).
    + split; [reflexivity|]. cbn [Spec.agree].
      split; [reflexivity|]. split; [exact Hm|]. now rewrite Hm.
    + split; [reflexivity|]. exact I.
  - apply Nat.ltb_ge in Ea.
    replace (Nat.min 10 (length (history c st1)) <=? 3)%nat with true
      by (symmetry; apply Nat.leb_le; lia).
    cbn [andb]. split; [reflexivity|]. exact I.
Qed.

Lemma run_simulates (pt stt : Q) (c : channel) (inputs : list reading) :
  forall st st' outs,
    run pt stt st inputs = Some (st', outs) ->
    Forall2 Spec.agree
      (decisions c inputs outs)
      (Spec.ingest_all (Spec.program_config (threshold pt stt c))
         (Py.slice_last (history c st) 10, last_trigger c st)
         (timed_samples c inputs)).
Proof.
  induction inputs as [|r rest IH]; intros st st' outs Hrun.
  - injection Hrun as <- <-. constructor.
  - apply run_cons in Hrun.
    destruct Hrun as (st1 & out & outs' & Hb & Hrest & ->).
    specialize (IH st1 st' outs' Hrest).
    unfold timed_samples in *. cbn [decisions flat_map].
    destruct (value c r) as [v|] eqn:Hv.
    + cbn [app Spec.ingest_all].
      pose proof (ingest_simulates pt stt c r st st1 out v Hb Hv) as Hs.
      destruct (Spec.ingest _ _ v (current_time r)) as [ch' d].
      destruct Hs as (-> & Hag).
      constructor; assumption.
    + cbn [app].
      destruct (loop_body_channel pt stt c r st st1 out Hb) as (Hh & Hf & Hl).
      rewrite Hv in Hh, Hf. rewrite Hf in Hl. rewrite Hh, Hl in IH.
      exact IH.
Qed.

(** C10.  For every window size of at least one and every non-empty
    sequence of ingested values, [calculate_baseline] over the whole,
    never-evicted history returns the mean of the bounded FIFO window of
    that size fed the same values.  And the program's decisions on a
    channel, iteration by iteration, are those of the bounded-window
    engine with the program's constants (window 10, arming after 3,
    cooldown 2.0) started with the same trigger time. *)
Theorem unbounded_history_refines_bounded_window (w : nat)
    (values : list Q) :
  (1 <= w)%nat -> values <> [] ->
  (exists b,
      calculate_baseline values w = Some b
      /\ b == Spec.mean (Spec.window w [] values))
  /\ (forall pt stt c inputs,
         exists st' outs,
           read_arduino_data pt stt inputs = Some (st', outs)
           /\ Forall2 Spec.agree
                (decisions c inputs outs)
                (Spec.ingest_all
                   (Spec.program_config (threshold pt stt c))
                   ([], last_trigger c init_state)
                   (timed_samples c inputs))).
Proof.
  intros Hw Hne. split.
  - exists (baseline_value values w).
    split; [apply calculate_baseline_value; lia|].
    assert (E : Spec.window w [] values = Py.slice_last values w).
    { pose proof (window_slice_last w values Hw []) as H.
      destruct w as [|w']; [lia|]. exact H. }
    rewrite E. apply baseline_value_window; assumption.
  - intros pt stt c inputs.
    destruct (run_total pt stt init_state inputs) as (st' & outs & Hrun).
    exists st', outs. split; [exact Hrun|].
    pose proof (run_simulates pt stt c inputs init_state st' outs Hrun) as H.
    destruct c; exact H.
Qed.

Lemma unbounded_history_refines_bounded_window_witness :
  exists b,
    calculate_baseline [1; 2; 3; 4; 5] 2 = Some b
    /\ b == Spec.mean (Spec.window 2 [] [1; 2; 3; 4; 5]).
Proof.
  apply (unbounded_history_refines_bounded_window 2 [1; 2; 3; 4; 5]).
  - lia.
  - discriminate.
Defined.

(** * Further properties of the program *)

(** ** [calculate_baseline]: errors and bounds *)

(** X1.  [calculate_baseline] raises exactly when the window size is 0,
    and then for every list, the empty one included; for every positive
    window size it returns a number, which is 0 for the empty list. *)
Theorem calculate_baseline_raises_iff (values : list Q) (w : nat) :
  (calculate_baseline values w = None <-> w = 0%nat)
  /\ ((1 <= w)%nat -> calculate_baseline [] w = Some 0).
Proof.
  split.
  - split.
    + intro H. destruct w as [|w]; [reflexivity|].
      rewrite calculate_baseline_value in H by lia. discriminate.
    + intros ->. unfold calculate_baseline.
      assert ((length values <? 0)%nat = false) as ->
        by (apply Nat.ltb_ge; lia).
      reflexivity.
  - intro Hw. unfold calculate_baseline. cbn [length].
    assert ((0 <? w)%nat = true) as -> by (apply Nat.ltb_lt; lia).
    reflexivity.
Qed.

Lemma of_nat_S (n : nat) : Py.of_nat (S n) == Py.of_nat n + 1.
Proof.
  unfold Py.of_nat. rewrite Nat2Z.inj_succ. unfold Z.succ.
  rewrite inject_Z_plus. reflexivity.
Qed.



Lemma slice_last_nonempty {A : Type} (l : list A) (w : nat) :
  (1 <= w)%nat -> l <> [] -> Py.slice_last l w <> [].
Proof.
  intros Hw Hne E. apply (f_equal (@length A)) in E.
  rewrite slice_last_length in E by exact Hw.
  destruct l; [congruence|]. cbn in E. lia.
Qed.




(** ** The sample is part of its own baseline *)






(** ** Signals that do not rise *)

Lemma fold_right_lower (l : list Q) (lo : Q) :
  (forall x, In x l -> lo <= x) ->
  Py.of_nat (length l) * lo <= fold_right Qplus 0 l.
Proof.
  induction l as [|x l IH]; intro H.
  - cbn [length fold_right]. change (Py.of_nat 0) with 0. lra.
  - cbn [length fold_right]. rewrite of_nat_S.
    pose proof (H x (or_introl eq_refl)) as Hlo.
    assert (IH' := IH (fun y Hy => H y (or_intror Hy))).
    lra.
Qed.

Lemma baseline_value_lower (values : list Q) (w : nat) (lo : Q) :
  (1 <= w)%nat -> values <> [] ->
  (forall x, In x (Py.slice_last values w) -> lo <= x) ->
  lo <= baseline_value values w.
Proof.
  intros Hw Hne H.
  rewrite (baseline_value_window values w Hw Hne). unfold Spec.mean.
  pose proof (fold_right_lower _ lo H) as Hlo.
  fold (Py.of_nat (length (Py.slice_last values w))).
  apply Qle_shift_div_l; [|lra].
  apply of_nat_pos.
  pose proof (slice_last_nonempty values w Hw Hne) as Hs.
  destruct (Py.slice_last values w); [congruence|cbn; lia].
Qed.



(** ** The rate of fires *)

Lemma last_cons_default (l : list Q) :
  forall a b, last (b :: l) a = last l b.
Proof.
  induction l as [|y l IH]; intros a b; [reflexivity|].
  change (last (b :: y :: l) a) with (last (y :: l) a).
  rewrite (IH a y). symmetry. apply IH.
Qed.

Lemma chain_span (a : Q) (l : list Q) :
  chain (fun x y => x + 2 < y) a l ->
  a + 2 * Py.of_nat (length l) <= last l a.
Proof.
  revert a. induction l as [|b l IH]; intros a H.
  - cbn [length last]. change (Py.of_nat 0) with 0. lra.
  - destruct H as [Hab Hrest]. specialize (IH b Hrest).
    cbn [length]. rewrite of_nat_S.
    rewrite last_cons_default. lra.
Qed.

Lemma fire_times_chain (pt stt : Q) (c : channel) (inputs : list reading) :
  forall st st' outs,
    run pt stt st inputs = Some (st', outs) ->
    chain (fun x y => x + 2 < y) (last_trigger c st)
          (fire_times c inputs outs)
    /\ last_trigger c st'
       = last (fire_times c inputs outs) (last_trigger c st)
    /\ length (fire_times c inputs outs) = fire_count c outs.
Proof.
  induction inputs as [|r rest IH]; intros st st' outs Hrun.
  - injection Hrun as <- <-. cbn. auto.
  - apply run_cons in Hrun.
    destruct Hrun as (st1 & out & outs' & Hb & Hrest & ->).
    destruct (IH st1 st' outs' Hrest) as (Hc & Hl & Hn).
    unfold fire_count in *. cbn [fire_times filter].
    destruct (fired c out) eqn:F.
    + destruct (fired_true pt stt c r st st1 out Hb F)
        as (v & _ & _ & _ & Hcool & Hlast).
      rewrite Hlast in Hc, Hl. cbn [chain length].
      split; [split; [lra | exact Hc]|].
      split; [|now rewrite Hn].
      now rewrite Hl, last_cons_default.
    + rewrite (fired_false pt stt c r st st1 out Hb F) in Hc, Hl.
      auto.
Qed.

(** X5.  On each channel the timestamps of the fires of a run increase
    by more than 2.0 from one fire to the next, the first one being more
    than 2.0 after the trigger time the run started with; the trigger
    time at the end is the timestamp of the last fire; and so [n] fires
    cannot happen within [2 n] seconds: the final trigger time is at
    least [2 n] after the initial one. *)
Theorem fires_are_rate_limited (pt stt : Q) (c : channel)
    (st st' : state) (inputs : list reading) (outs : list (list event)) :
  run pt stt st inputs = Some (st', outs) ->
  chain (fun x y => x + 2 < y) (last_trigger c st)
        (fire_times c inputs outs)
  /\ last_trigger c st'
     = last (fire_times c inputs outs) (last_trigger c st)
  /\ length (fire_times c inputs outs) = fire_count c outs
  /\ last_trigger c st + 2 * Py.of_nat (fire_count c outs)
     <= last_trigger c st'.
Proof.
  intro Hrun.
  destruct (fire_times_chain pt stt c inputs st st' outs Hrun)
    as (Hc & Hl & Hn).
  repeat split; try assumption.
  rewrite Hl, <- Hn. now apply chain_span.
Qed.

Lemma fires_are_rate_limited_witness :
  let inputs :=
    [reading_of Photo 50 1; reading_of Photo 50 2;
     reading_of Photo 50 3; reading_of Photo 50 4;
     reading_of Photo 80 10; reading_of Photo 50 11;
     reading_of Photo 200 13] in
  let st' := {| last_stress_trigger := 13; last_sound_trigger := 0;
                photo_history := [50; 50; 50; 50; 80; 50; 200];
                sound_history := [] |} in
  exists outs,
    fire_times Photo inputs outs = [10; 13]
    /\ (chain (fun x y => x + 2 < y) (last_trigger Photo init_state)
              (fire_times Photo inputs outs)
        /\ last_trigger Photo st'
           = last (fire_times Photo inputs outs)
                  (last_trigger Photo init_state)
        /\ length (fire_times Photo inputs outs) = fire_count Photo outs
        /\ last_trigger Photo init_state
             + 2 * Py.of_nat (fire_count Photo outs)
           <= last_trigger Photo st').
Proof.
  intros inputs st'. eexists. split; cycle 1.
  - eapply (fires_are_rate_limited 15 2 Photo init_state st' inputs _).
    vm_compute. reflexivity.
  - reflexivity.
Defined.

(** ** The shape of an iteration's output *)

Lemma step_triggers (pt stt : Q) (r : reading) (st : state) :
  let out := snd (step pt stt r st) in
  filter (is_trigger Photo) out
  = (if fired Photo out then [TriggerStress] else [])
  /\ filter (is_trigger Sound) out
     = (if fired Sound out then [TriggerSound] else [])
  /\ flat_map device_events out
     = (if fired Photo out then trigger_stress_action_body else [])
       ++ (if fired Sound out then trigger_sound_action_body else []).
Proof.
  unfold step.
  destruct (detect pt _ _ _ _) as [[ph pl] po].
  destruct (detect stt _ _ _ _) as [[sh sl] so].
  cbn [snd].
  destruct po as [[[pv pb] [|]]|]; destruct so as [[[sv sb] [|]]|];
    repeat split; reflexivity.
Qed.

(** X6.  In every iteration each channel is triggered at most once and
    reports at most once; a report is made only for a sample carried by
    that iteration, shows the baseline [calculate_baseline] returns on
    the history that already contains the sample, and shows the sample
    minus that baseline as increase; and a channel is never triggered
    without such a report in the same iteration. *)
Theorem iteration_output_shape (pt stt : Q) (c : channel) (r : reading)
    (st : state) :
  exists st' out,
    loop_body pt stt r st = Some (tt, st', out)
    /\ (length (filter (is_trigger c) out) <= 1)%nat
    /\ (length (reports c out) <= 1)%nat
    /\ (forall v b d,
           In (v, b, d) (reports c out) ->
           value c r = Some v
           /\ calculate_baseline (history c st') default_window_size
              = Some b
           /\ d = v - b)
    /\ (fired c out = true -> reports c out <> [])
    /\ (value c r = None -> reports c out = [] /\ fired c out = false).
Proof.
  destruct (loop_body_total pt stt r st) as (st' & out & Hb).
  exists st', out. split; [exact Hb|].
  pose proof (loop_body_reports pt stt c r st st' out Hb) as Hr.
  destruct (loop_body_channel pt stt c r st st' out Hb) as (Hh & Hf & _).
  assert (Ht : (length (filter (is_trigger c) out) <= 1)%nat).
  { pose proof Hb as Hb'. rewrite loop_body_step in Hb'.
    injection Hb' as _ <-.
    destruct (step_triggers pt stt r st) as (Hp & Hs & _).
    destruct c; [rewrite Hp | rewrite Hs];
      match goal with |- context [if ?b then _ else _] => destruct b end;
      cbn; lia. }
  split; [exact Ht|].
  destruct (value c r) as [v|].
  - destruct (3 <? length (history c st ++ [v]))%nat eqn:Ea.
    + rewrite Hr. split; [cbn; lia|]. split.
      * intros v0 b d [E|[]]. injection E as <- <- <-.
        split; [reflexivity|]. split; [|reflexivity].
        rewrite Hh. apply calculate_baseline_value.
        unfold default_window_size. lia.
      * split; [discriminate|]. discriminate.
    + rewrite Hr, Hf. cbn [andb length]. split; [lia|].
      split; [intros v0 b d []|]. split; discriminate.
  - rewrite Hr, Hf. cbn [length]. split; [lia|].
    split; [intros v0 b d []|]. split; [discriminate|]. auto.
Qed.

(** ** The keyboard *)








(** ** [find_arduino_port] *)

Lemma fold_extend (glob : text -> list text) (ps : list text) :
  forall acc,
    fold_left (fun ports pattern => ports ++ glob pattern) ps acc
    = acc ++ flat_map glob ps.
Proof.
  induction ps as [|p ps IH]; intro acc; cbn [fold_left flat_map].
  - now rewrite app_nil_r.
  - now rewrite IH, app_assoc.
Qed.

Lemma first_of_globs (glob : text -> list text) (ps : list text)
    (port : text) :
  hd_error (flat_map glob ps) = Some port
  <-> exists before p after,
        ps = before ++ p :: after
        /\ (forall q, In q before -> glob q = [])
        /\ hd_error (glob p) = Some port.
Proof.
  induction ps as [|p ps IH]; cbn [flat_map].
  - split; [discriminate|].
    intros (before & q & after & E & _). destruct before; discriminate.
  - destruct (glob p) as [|x xs] eqn:G.
    + cbn [app]. rewrite IH. split.
      * intros (before & q & after & -> & Hb & Hq).
        exists (p :: before), q, after. repeat split; auto.
        intros q' [<-|H]; auto.
      * intros (before & q & after & E & Hb & Hq).
        destruct before as [|b before]; cbn [app] in E; injection E as <- ->.
        -- rewrite G in Hq. discriminate.
        -- exists before, q, after. repeat split; auto.
           intros q' H. apply Hb. now right.
    + cbn [app hd_error]. split.
      * intro H. exists [], p, ps. rewrite G. repeat split; auto.
        intros q [].
      * intros (before & q & after & E & Hb & Hq).
        destruct before as [|b before]; cbn [app] in E; injection E as <- ->.
        -- now rewrite G in Hq.
        -- rewrite (Hb p (or_introl eq_refl)) in G. discriminate.
Qed.

Lemma no_glob_matches (glob : text -> list text) (ps : list text) :
  flat_map glob ps = [] <-> forall p, In p ps -> glob p = [].
Proof.
  induction ps as [|q ps IH]; cbn [flat_map].
  - split; [intros _ p []|reflexivity].
  - split.
    + intros H p [<-|Hp]; apply app_eq_nil in H; destruct H as [H1 H2];
        [exact H1 | now apply IH].
    + intro H. rewrite (H q (or_introl eq_refl)). cbn [app].
      apply IH. intros p Hp. apply H. now right.
Qed.

(** X8.  [find_arduino_port] returns [None] exactly when none of the
    three patterns matches anything; otherwise it returns the first path
    of the first pattern that matches something, the patterns being
    tried in the order usbmodem, usbserial, wchusb: a usbmodem device
    always wins over the other two kinds. *)
Theorem find_arduino_port_priority (glob : text -> list text) :
  (find_arduino_port glob = None
   <-> forall p, In p patterns -> glob p = [])
  /\ (forall port,
         find_arduino_port glob = Some port
         <-> exists before p after,
               patterns = before ++ p :: after
               /\ (forall q, In q before -> glob q = [])
               /\ hd_error (glob p) = Some port)
  /\ (forall port rest,
         glob (str "/dev/cu.usbmodem*") = port :: rest ->
         find_arduino_port glob = Some port).
Proof.
  assert (E : forall o,
             find_arduino_port glob = o
             <-> hd_error (flat_map glob patterns) = o).
  { intro o. unfold find_arduino_port. rewrite fold_extend. cbn [app].
    destruct (flat_map glob patterns); reflexivity. }
  split; [|split].
  - rewrite E, <- no_glob_matches.
    destruct (flat_map glob patterns); cbn [hd_error];
      split; intro H; (reflexivity || discriminate H).
  - intro port. rewrite E. apply first_of_globs.
  - intros port rest G. apply E.
    unfold patterns. cbn [flat_map]. now rewrite G.
Qed.

(** ** Characters *)

Lemma digit_not_space (c : ascii) :
  Re.is_digit c = true -> Re.is_space c = false.
Proof.
  destruct c as [[|] [|] [|] [|] [|] [|] [|] [|]];
    vm_compute; congruence.
Qed.

Lemma space_not_digit (c : ascii) :
  Re.is_space c = true -> Re.is_digit c = false.
Proof.
  intro H. destruct (Re.is_digit c) eqn:D; [|reflexivity].
  apply digit_not_space in D. congruence.
Qed.

Lemma take_drop_while (p : ascii -> bool) (s : text) :
  take_while p s ++ drop_while p s = s.
Proof.
  induction s as [|c s IH]; [reflexivity|].
  cbn [take_while drop_while]. destruct (p c); [|reflexivity].
  cbn [app]. now rewrite IH.
Qed.

Lemma take_while_all (p : ascii -> bool) (s : text) :
  forallb p (take_while p s) = true.
Proof.
  induction s as [|c s IH]; [reflexivity|].
  cbn [take_while]. destruct (p c) eqn:E; [|reflexivity].
  cbn [forallb]. now rewrite E, IH.
Qed.

Lemma drop_while_head (p : ascii -> bool) (s : text) (c : ascii) (t : text) :
  drop_while p s = c :: t -> p c = false.
Proof.
  induction s as [|x s IH]; [discriminate|].
  cbn [drop_while]. destruct (p x) eqn:E; [exact IH|].
  intro H. injection H as <- _. exact E.
Qed.

Lemma take_while_app (p : ascii -> bool) (a t : text) :
  forallb p a = true -> stops p t ->
  take_while p (a ++ t) = a /\ drop_while p (a ++ t) = t.
Proof.
  intros Ha Ht. induction a as [|x a IH]; cbn [app].
  - destruct t as [|c t]; [split; reflexivity|].
    cbn in Ht. cbn [take_while drop_while]. rewrite Ht. split; reflexivity.
  - cbn [forallb] in Ha. apply andb_true_iff in Ha. destruct Ha as [Hx Ha].
    cbn [take_while drop_while]. rewrite Hx.
    destruct (IH Ha) as [-> ->]. split; reflexivity.
Qed.

(** ** The matcher on the program's patterns *)

Lemma star_greedy {A : Type} (p : ascii -> bool) (k : text -> option A)
    (s : text) (x : A) :
  k (drop_while p s) = Some x -> Re.match_star p s k = Some x.
Proof.
  induction s as [|c s IH]; cbn [drop_while Re.match_star]; [auto|].
  destruct (p c); [|auto]. intro H. now rewrite (IH H).
Qed.

Lemma star_no_way_back {A : Type} (p : ascii -> bool)
    (k : text -> option A) (s : text) :
  (forall c t, p c = true -> k (c :: t) = None) ->
  Re.match_star p s k = k (drop_while p s).
Proof.
  intro Hk. induction s as [|c s IH]; cbn [drop_while Re.match_star];
    [reflexivity|].
  destruct (p c) eqn:E; [|reflexivity].
  rewrite IH. destruct (k (drop_while p s)); [reflexivity|].
  now apply Hk.
Qed.

Lemma match_literal {A : Type} (key : text) (items : list Re.item)
    (k : text -> option A) :
  forall s,
    Re.match_items (literal key ++ items) s k
    = match strip_prefix key s with
      | Some s0 => Re.match_items items s0 k
      | None => None
      end.
Proof.
  induction key as [|x key IH]; intro s; [reflexivity|].
  cbn [literal map app Re.match_items strip_prefix Re.accepts].
  destruct s as [|c s]; [reflexivity|].
  destruct (Ascii.eqb x c); [apply IH|reflexivity].
Qed.

Lemma number_split (s : text) : number_text s ++ number_rest s = s.
Proof.
  unfold number_text, number_rest. rewrite <- app_assoc.
  transitivity (take_while Re.is_digit s ++ drop_while Re.is_digit s);
    [|apply take_drop_while].
  f_equal.
  destruct (drop_while Re.is_digit s) as [|c t]; [reflexivity|].
  destruct (Ascii.eqb "." c); [|reflexivity].
  cbn [app]. now rewrite take_drop_while.
Qed.

Lemma firstn_split (a b : text) :
  firstn (length (a ++ b) - length b) (a ++ b) = a.
Proof.
  rewrite length_app.
  replace (length a + length b - length b)%nat with (length a + 0)%nat by lia.
  rewrite firstn_app_2. cbn [firstn]. apply app_nil_r.
Qed.

Lemma match_number (s : text) :
  Re.match_items number_group s
    (fun s2 => Some (firstn (length s - length s2) s))
  = match s with
    | c :: _ => if Re.is_digit c then Some (number_text s) else None
    | [] => None
    end.
Proof.
  destruct s as [|c s]; [reflexivity|].
  cbn [number_group Re.match_items Re.accepts].
  destruct (Re.is_digit c) eqn:D; [|reflexivity].
  set (K := fun s2 : text =>
              Some (firstn (length (c :: s) - length s2) (c :: s))).
  assert (Hrest : K (number_rest (c :: s)) = Some (number_text (c :: s))).
  { unfold K. rewrite <- (number_split (c :: s)) at 1 3.
    now rewrite firstn_split. }
  apply star_greedy.
  change (Re.accepts Re.Digit) with Re.is_digit.
  change (Re.accepts (Re.Lit ".")) with (Ascii.eqb ".").
  unfold number_rest in Hrest. cbn [drop_while] in Hrest. rewrite D in Hrest.
  destruct (drop_while Re.is_digit s) as [|d t] eqn:E.
  - exact Hrest.
  - destruct (Ascii.eqb "." d) eqn:Ed.
    + now rewrite (star_greedy Re.is_digit _ t _ Hrest).
    + apply star_greedy. cbn [drop_while].
      now rewrite (drop_while_head _ _ _ _ E).
Qed.

Lemma match_at_scan (key s : text) :
  Re.match_at (reading_pattern key) s = scan key s.
Proof.
  unfold Re.match_at, reading_pattern, scan. cbn [Re.lead Re.group].
  rewrite match_literal.
  destruct (strip_prefix key s) as [s0|]; [|reflexivity].
  cbn [Re.match_items]. change (Re.accepts Re.Whitespace) with Re.is_space.
  rewrite star_no_way_back.
  - rewrite match_number.
    destruct (drop_while Re.is_space s0) as [|c s1]; reflexivity.
  - intros c t Hc. rewrite match_number.
    now rewrite (space_not_digit c Hc).
Qed.

Lemma search_cons (key : text) (c : ascii) (s : text) :
  Re.search (reading_pattern key) (c :: s)
  = match scan key (c :: s) with
    | Some g => Some g
    | None => Re.search (reading_pattern key) s
    end.
Proof.
  cbn [Re.search]. now rewrite match_at_scan.
Qed.

Lemma search_nil (key : text) :
  Re.search (reading_pattern key) [] = scan key [].
Proof.
  cbn [Re.search]. rewrite match_at_scan. destruct (scan key []); reflexivity.
Qed.

(** ** [float] on the captured text *)

Lemma of_nat_nonneg (n : nat) : 0 <= Py.of_nat n.
Proof.
  unfold Py.of_nat, Qle. simpl. lia.
Qed.

Lemma nonempty_not_empty (s : text) : s <> [] -> is_empty s = false.
Proof.
  destruct s; [congruence|reflexivity].
Qed.

Lemma py_float_integer (ip : text) :
  forallb Re.is_digit ip = true -> ip <> [] ->
  py_float ip = Some (Py.of_nat (decimal ip)).
Proof.
  intros Hd Hne. unfold py_float.
  destruct (take_while_app Re.is_digit ip [] Hd I) as [Ht Hr].
  rewrite app_nil_r in Ht, Hr. rewrite Ht, Hr.
  now rewrite nonempty_not_empty.
Qed.

Lemma py_float_point (ip fp : text) :
  forallb Re.is_digit ip = true -> ip <> [] ->
  forallb Re.is_digit fp = true ->
  py_float (ip ++ "."%char :: fp)
  = Some (Py.of_nat (decimal ip)
          + Py.of_nat (decimal fp) / Py.of_nat (10 ^ length fp)).
Proof.
  intros Hd Hne Hf. unfold py_float.
  destruct (take_while_app Re.is_digit ip ("."%char :: fp) Hd eq_refl)
    as [-> ->].
  rewrite Hf, (nonempty_not_empty ip Hne). reflexivity.
Qed.

Lemma number_text_shape (d : ascii) (s : text) :
  Re.is_digit d = true ->
  exists ip, forallb Re.is_digit ip = true /\ ip <> []
    /\ (number_text (d :: s) = ip
        \/ exists fp, forallb Re.is_digit fp = true
                      /\ number_text (d :: s) = ip ++ "."%char :: fp).
Proof.
  intro D. exists (take_while Re.is_digit (d :: s)).
  split; [apply take_while_all|].
  split; [cbn [take_while]; rewrite D; discriminate|].
  unfold number_text.
  destruct (drop_while Re.is_digit (d :: s)) as [|c t];
    [left; apply app_nil_r|].
  destruct (Ascii.eqb "." c) eqn:E; [|left; apply app_nil_r].
  apply Ascii.eqb_eq in E. subst c.
  right. exists (take_while Re.is_digit t).
  split; [apply take_while_all|reflexivity].
Qed.

Lemma py_float_number_text (d : ascii) (s : text) :
  Re.is_digit d = true ->
  exists x, py_float (number_text (d :: s)) = Some x /\ 0 <= x.
Proof.
  intro D.
  destruct (number_text_shape d s D) as (ip & Hip & Hne & [E|(fp & Hfp & E)]);
    rewrite E.
  - rewrite (py_float_integer ip Hip Hne). eexists. split; [reflexivity|].
    apply of_nat_nonneg.
  - rewrite (py_float_point ip fp Hip Hne Hfp).
    eexists. split; [reflexivity|].
    assert (0 <= Py.of_nat (decimal fp) / Py.of_nat (10 ^ length fp)).
    { apply Qle_shift_div_l.
      - apply of_nat_pos. apply Nat.neq_0_lt_0, Nat.pow_nonzero. lia.
      - pose proof (of_nat_nonneg (decimal fp)). lra. }
    pose proof (of_nat_nonneg (decimal ip)). lra.
Qed.

(** ** Where the scanner succeeds *)

Lemma strip_prefix_app (key t : text) : strip_prefix key (key ++ t) = Some t.
Proof.
  induction key as [|k key IH]; [reflexivity|].
  cbn [app strip_prefix]. now rewrite Ascii.eqb_refl.
Qed.

Lemma strip_prefix_Some (key : text) :
  forall s s0, strip_prefix key s = Some s0 -> s = key ++ s0.
Proof.
  induction key as [|k key IH]; intros s s0 H.
  - now injection H as <-.
  - destruct s as [|c s]; [discriminate|]. cbn [strip_prefix] in H.
    destruct (Ascii.eqb k c) eqn:E; [|discriminate].
    apply Ascii.eqb_eq in E. subst c. cbn [app]. f_equal. now apply IH.
Qed.

Lemma scan_Some (key s g : text) :
  scan key s = Some g ->
  exists ws d rest,
    s = key ++ ws ++ d :: rest
    /\ forallb Re.is_space ws = true
    /\ Re.is_digit d = true
    /\ g = number_text (d :: rest).
Proof.
  unfold scan. destruct (strip_prefix key s) as [s0|] eqn:P; [|discriminate].
  apply strip_prefix_Some in P.
  destruct (drop_while Re.is_space s0) as [|d rest] eqn:E; [discriminate|].
  destruct (Re.is_digit d) eqn:D; [|discriminate].
  intro H. injection H as <-.
  exists (take_while Re.is_space s0), d, rest.
  split; [|split; [apply take_while_all | split; [exact D|reflexivity]]].
  now rewrite P, <- E, take_drop_while.
Qed.

Lemma scan_reading (key ws : text) (d : ascii) (rest : text) :
  forallb Re.is_space ws = true -> Re.is_digit d = true ->
  scan key (key ++ ws ++ d :: rest) = Some (number_text (d :: rest)).
Proof.
  intros Hws D. unfold scan. rewrite strip_prefix_app.
  destruct (take_while_app Re.is_space ws (d :: rest) Hws
              (digit_not_space d D)) as [_ ->].
  now rewrite D.
Qed.

Lemma scan_other_initial (k : ascii) (key : text) (c : ascii) (s : text) :
  c <> k -> scan (k :: key) (c :: s) = None.
Proof.
  intro H. unfold scan. cbn [strip_prefix].
  destruct (Ascii.eqb k c) eqn:E; [|reflexivity].
  apply Ascii.eqb_eq in E. congruence.
Qed.

Lemma search_Some (key : text) (s : text) (g : text) :
  Re.search (reading_pattern key) s = Some g ->
  exists pre s', s = pre ++ s' /\ scan key s' = Some g.
Proof.
  induction s as [|c s IH].
  - rewrite search_nil. intro H. exists [], []. auto.
  - rewrite search_cons. destruct (scan key (c :: s)) as [g'|] eqn:E.
    + intro H. injection H as <-. exists [], (c :: s). auto.
    + intro H. destruct (IH H) as (pre & s' & -> & Hs).
      exists (c :: pre), s'. auto.
Qed.

Lemma search_finds (key pre s' g : text) :
  scan key s' = Some g ->
  exists g', Re.search (reading_pattern key) (pre ++ s') = Some g'.
Proof.
  intro H. induction pre as [|c pre IH]; cbn [app].
  - destruct s' as [|c s'].
    + rewrite search_nil, H. eauto.
    + rewrite search_cons, H. eauto.
  - rewrite search_cons. destruct (scan key (c :: pre ++ s')); eauto.
Qed.

Lemma search_skips (k : ascii) (key pre s' : text) :
  ~ In k pre -> s' <> [] ->
  Re.search (reading_pattern (k :: key)) (pre ++ s') = scan (k :: key) s'
  \/ (scan (k :: key) s' = None
      /\ Re.search (reading_pattern (k :: key)) (pre ++ s')
         = Re.search (reading_pattern (k :: key)) s').
Proof.
  intros Hpre Hne. induction pre as [|c pre IH]; cbn [app].
  - destruct s' as [|c s']; [congruence|].
    rewrite search_cons. destruct (scan (k :: key) (c :: s')); auto.
  - rewrite search_cons, scan_other_initial.
    + apply IH. intro H. apply Hpre. now right.
    + intros ->. apply Hpre. now left.
Qed.

Lemma extracted_search (c : channel) (line : text) :
  extracted c line
  = match Re.search (reading_pattern (keyword c)) line with
    | Some g => py_float g
    | None => None
    end.
Proof.
  destruct c; reflexivity.
Qed.

(** ** [extract_sensor_values] *)

Lemma search_float (key line g : text) :
  Re.search (reading_pattern key) line = Some g ->
  exists x, py_float g = Some x /\ 0 <= x.
Proof.
  intro Hg. apply search_Some in Hg.
  destruct Hg as (pre & s' & _ & Hs).
  apply scan_Some in Hs. destruct Hs as (ws & d & rest & _ & _ & D & ->).
  now apply py_float_number_text.
Qed.

Lemma extraction_nonneg (c : channel) (line : text) (x : Q) :
  extracted c line = Some x -> 0 <= x.
Proof.
  rewrite extracted_search.
  destruct (Re.search (reading_pattern (keyword c)) line) as [g|] eqn:S;
    [|discriminate].
  destruct (search_float _ _ _ S) as (y & -> & Hy).
  intro H. now injection H as <-.
Qed.

(** X9.  [extract_sensor_values] yields a value for a channel exactly
    when the line contains the channel's keyword followed by any amount
    of whitespace and a digit, anywhere in the line; [float] accepts
    every text the pattern captures, so the [ValueError] branch is never
    taken; and the value is never negative (a minus sign after the
    keyword makes that occurrence not match). *)
Theorem extraction_finds_readings (c : channel) (line : text) :
  (extracted c line <> None
   <-> exists pre ws d rest,
         forallb Re.is_space ws = true
         /\ Re.is_digit d = true
         /\ line = pre ++ keyword c ++ ws ++ d :: rest)
  /\ (forall g,
         Re.search (reading_pattern (keyword c)) line = Some g ->
         exists x, py_float g = Some x)
  /\ (forall x, extracted c line = Some x -> 0 <= x).
Proof.
  rewrite extracted_search.
  assert (Hfloat : forall g,
             Re.search (reading_pattern (keyword c)) line = Some g ->
             exists x, py_float g = Some x /\ 0 <= x).
  { intros g Hg. apply search_Some in Hg.
    destruct Hg as (pre & s' & _ & Hs).
    apply scan_Some in Hs. destruct Hs as (ws & d & rest & _ & _ & D & ->).
    now apply py_float_number_text. }
  split; [|split].
  - split.
    + destruct (Re.search (reading_pattern (keyword c)) line) as [g|] eqn:S;
        [|congruence].
      intros _. apply search_Some in S. destruct S as (pre & s' & -> & Hs).
      apply scan_Some in Hs. destruct Hs as (ws & d & rest & -> & Hw & D & _).
      exists pre, ws, d, rest. auto.
    + intros (pre & ws & d & rest & Hw & D & ->).
      destruct (search_finds (keyword c) pre _ _
                  (scan_reading (keyword c) ws d rest Hw D)) as (g & Hg).
      rewrite Hg. destruct (Hfloat g Hg) as (x & -> & _). discriminate.
  - intros g Hg. destruct (Hfloat g Hg) as (x & Hx & _). eauto.
  - intros x.
    destruct (Re.search (reading_pattern (keyword c)) line) as [g|];
      [|discriminate].
    destruct (Hfloat g eq_refl) as (y & -> & Hy). congruence.
Qed.

Lemma number_text_point (ip fp rest : text) :
  forallb Re.is_digit ip = true -> forallb Re.is_digit fp = true ->
  stops Re.is_digit rest ->
  number_text (ip ++ "."%char :: fp ++ rest) = ip ++ "."%char :: fp.
Proof.
  intros Hip Hfp Hrest. unfold number_text.
  destruct (take_while_app Re.is_digit ip ("."%char :: fp ++ rest) Hip eq_refl)
    as [-> ->].
  rewrite Ascii.eqb_refl.
  now destruct (take_while_app Re.is_digit fp rest Hfp Hrest) as [-> _].
Qed.

Lemma number_text_integer (ip rest : text) :
  forallb Re.is_digit ip = true ->
  stops Re.is_digit rest -> stops (Ascii.eqb ".") rest ->
  number_text (ip ++ rest) = ip.
Proof.
  intros Hip Hd Hp. unfold number_text.
  destruct (take_while_app Re.is_digit ip rest Hip Hd) as [-> ->].
  destruct rest as [|c t]; [apply app_nil_r|].
  unfold stops in Hp. rewrite Hp. apply app_nil_r.
Qed.

Lemma extracted_first (c : channel) (pre ws : text) (d : ascii)
    (rest : text) :
  ~ In (hd " "%char (keyword c)) pre ->
  forallb Re.is_space ws = true -> Re.is_digit d = true ->
  extracted c (pre ++ keyword c ++ ws ++ d :: rest)
  = py_float (number_text (d :: rest)).
Proof.
  intros Hpre Hws D. rewrite extracted_search.
  pose proof (scan_reading (keyword c) ws d rest Hws D) as Hs.
  assert (Hk : exists k key, keyword c = k :: key
                             /\ hd " "%char (keyword c) = k).
  { destruct c; cbn; eauto. }
  destruct Hk as (k & key & Ek & Eh). rewrite Eh in Hpre.
  rewrite Ek in *.
  destruct (search_skips k key pre ((k :: key) ++ ws ++ d :: rest) Hpre)
    as [E|[E _]].
  - discriminate.
  - now rewrite E, Hs.
  - congruence.
Qed.

(** X10.  The value extracted for a channel is the first number after
    the first occurrence of its keyword: when nothing before the keyword
    starts like it, the digits after the keyword and optional whitespace
    are read as a decimal number, with the digits after a point as its
    fraction; what follows the number (a second point, an exponent,
    another reading) is ignored. *)
Theorem extraction_reads_first_number (c : channel)
    (pre ws ip fp rest : text) :
  ~ In (hd " "%char (keyword c)) pre ->
  forallb Re.is_space ws = true ->
  forallb Re.is_digit ip = true -> ip <> [] ->
  forallb Re.is_digit fp = true ->
  stops Re.is_digit rest ->
  extracted c (pre ++ keyword c ++ ws ++ ip ++ "."%char :: fp ++ rest)
  = Some (Py.of_nat (decimal ip)
          + Py.of_nat (decimal fp) / Py.of_nat (10 ^ length fp))
  /\ (stops (Ascii.eqb ".") rest ->
      extracted c (pre ++ keyword c ++ ws ++ ip ++ rest)
      = Some (Py.of_nat (decimal ip))).
Proof.
  intros Hpre Hws Hip Hne Hfp Hrest.
  destruct ip as [|d ip']; [congruence|].
  assert (D : Re.is_digit d = true).
  { cbn [forallb] in Hip. now apply andb_true_iff in Hip. }
  split.
  - change ((d :: ip') ++ "."%char :: fp ++ rest)
      with (d :: (ip' ++ "."%char :: fp ++ rest)).
    rewrite (extracted_first c pre ws d _ Hpre Hws D).
    change (d :: ip' ++ "."%char :: fp ++ rest)
      with ((d :: ip') ++ "."%char :: fp ++ rest).
    rewrite (number_text_point _ _ _ Hip Hfp Hrest).
    now apply py_float_point.
  - intro Hp.
    change ((d :: ip') ++ rest) with (d :: (ip' ++ rest)).
    rewrite (extracted_first c pre ws d _ Hpre Hws D).
    change (d :: ip' ++ rest) with ((d :: ip') ++ rest).
    rewrite (number_text_integer _ _ Hip Hrest Hp).
    now apply py_float_integer.
Qed.

Lemma extraction_reads_first_number_witness :
  extracted Sound
    (str "Photoresistor: 512, " ++ keyword Sound ++ str "  " ++ str "33"
     ++ "."%char :: str "50" ++ str ".7e9 Sound Sensor: 1")
  = Some (Py.of_nat (decimal (str "33"))
          + Py.of_nat (decimal (str "50"))
            / Py.of_nat (10 ^ length (str "50")))
  /\ (stops (Ascii.eqb ".") (str ".7e9 Sound Sensor: 1") ->
      extracted Sound
        (str "Photoresistor: 512, " ++ keyword Sound ++ str "  "
         ++ str "33" ++ str ".7e9 Sound Sensor: 1")
      = Some (Py.of_nat (decimal (str "33")))).
Proof.
  apply (extraction_reads_first_number Sound (str "Photoresistor: 512, ")
           (str "  ") (str "33") (str "50") (str ".7e9 Sound Sensor: 1")).
  - cbn. intros [H|[H|[H|[H|[H|[H|[H|[H|[H|[H|[H|[H|[H|[H|[H|[H|[H|[H|[H|[H|[]]]]]]]]]]]]]]]]]]]]]; discriminate H.
  - reflexivity.
  - reflexivity.
  - discriminate.
  - reflexivity.
  - reflexivity.
Defined.

(** ** Whitespace around a line *)

Lemma take_while_stop (p : ascii -> bool) (a b : text) :
  stops p b ->
  take_while p (a ++ b) = take_while p a
  /\ drop_while p (a ++ b) = drop_while p a ++ b.
Proof.
  intro Hb. induction a as [|x a IH]; cbn [app take_while drop_while].
  - destruct b as [|c b]; [split; reflexivity|].
    cbn in Hb. cbn [take_while drop_while]. rewrite Hb. split; reflexivity.
  - destruct (p x); [|split; reflexivity].
    destruct IH as [-> ->]. split; reflexivity.
Qed.

Lemma drop_while_all (p : ascii -> bool) (s : text) :
  forallb p s = true -> drop_while p s = [].
Proof.
  induction s as [|c s IH]; [reflexivity|].
  cbn [forallb drop_while]. intro H. apply andb_true_iff in H.
  destruct H as [-> H]. auto.
Qed.

Lemma drop_while_pad (p : ascii -> bool) (a ws : text) :
  forallb p ws = true ->
  drop_while p (a ++ ws)
  = match drop_while p a with
    | [] => []
    | c :: t => (c :: t) ++ ws
    end.
Proof.
  intro Hws. induction a as [|x a IH]; cbn [app drop_while].
  - now apply drop_while_all.
  - destruct (p x); [exact IH|reflexivity].
Qed.

Lemma spaces_stop_digits (ws : text) :
  forallb Re.is_space ws = true -> stops Re.is_digit ws.
Proof.
  destruct ws as [|c ws]; [exact (fun _ => I)|].
  cbn [forallb stops]. intro H. apply andb_true_iff in H.
  now apply space_not_digit.
Qed.

Lemma spaces_stop_point (ws : text) :
  forallb Re.is_space ws = true -> stops (Ascii.eqb ".") ws.
Proof.
  destruct ws as [|c ws]; [exact (fun _ => I)|].
  cbn [forallb stops]. intro H. apply andb_true_iff in H. destruct H as [H _].
  destruct (Ascii.eqb "." c) eqn:E; [|reflexivity].
  apply Ascii.eqb_eq in E. subst c. discriminate H.
Qed.

Lemma number_text_pad (s ws : text) :
  forallb Re.is_space ws = true ->
  number_text (s ++ ws) = number_text s.
Proof.
  intro Hws. unfold number_text.
  destruct (take_while_stop Re.is_digit s ws (spaces_stop_digits ws Hws))
    as [-> ->].
  f_equal.
  destruct (drop_while Re.is_digit s) as [|c t]; cbn [app].
  - pose proof (spaces_stop_point ws Hws) as Hp.
    destruct ws as [|w ws']; [reflexivity|]. unfold stops in Hp.
    now rewrite Hp.
  - destruct (Ascii.eqb "." c); [|reflexivity].
    now destruct (take_while_stop Re.is_digit t ws
                    (spaces_stop_digits ws Hws)) as [-> _].
Qed.

(** A keyword ends with a character that is not whitespace. *)
Lemma strip_prefix_pad (key : text) (ws : text) :
  key <> [] -> Re.is_space (last key " "%char) = false ->
  forallb Re.is_space ws = true ->
  forall s,
    strip_prefix key (s ++ ws)
    = match strip_prefix key s with
      | Some s0 => Some (s0 ++ ws)
      | None => None
      end.
Proof.
  intros Hne Hlast Hws.
  induction key as [|k key IH]; [congruence|].
  intro s. destruct s as [|c s]; cbn [app strip_prefix].
  - clear IH. revert k key Hne Hlast.
    induction ws as [|w ws IHw]; intros k key Hne Hlast; [reflexivity|].
    cbn [strip_prefix]. destruct (Ascii.eqb k w) eqn:E; [|reflexivity].
    apply Ascii.eqb_eq in E. subst w.
    cbn [forallb] in Hws. apply andb_true_iff in Hws. destruct Hws as [Hk Hws].
    destruct key as [|k' key'].
    + cbn [last] in Hlast. congruence.
    + apply (IHw Hws k' key'); [discriminate|exact Hlast].
  - destruct (Ascii.eqb k c); [|reflexivity].
    destruct key as [|k' key']; [reflexivity|].
    apply IH; [discriminate|exact Hlast].
Qed.

Lemma scan_pad (key s ws : text) :
  key <> [] -> Re.is_space (last key " "%char) = false ->
  forallb Re.is_space ws = true ->
  scan key (s ++ ws) = scan key s.
Proof.
  intros Hne Hlast Hws. unfold scan.
  rewrite (strip_prefix_pad key ws Hne Hlast Hws).
  destruct (strip_prefix key s) as [s0|]; [|reflexivity].
  rewrite (drop_while_pad Re.is_space s0 ws Hws).
  destruct (drop_while Re.is_space s0) as [|c s1]; [reflexivity|].
  cbn [app]. destruct (Re.is_digit c); [|reflexivity].
  f_equal. change (c :: s1 ++ ws) with ((c :: s1) ++ ws).
  now apply number_text_pad.
Qed.

Lemma search_pad (k : ascii) (key lead s trail : text) :
  Re.is_space k = false ->
  Re.is_space (last (k :: key) " "%char) = false ->
  forallb Re.is_space lead = true ->
  forallb Re.is_space trail = true ->
  Re.search (reading_pattern (k :: key)) (lead ++ s ++ trail)
  = Re.search (reading_pattern (k :: key)) s.
Proof.
  intros Hk Hlast Hlead Htrail.
  assert (Hsp : forall ws t,
             forallb Re.is_space ws = true ->
             Re.search (reading_pattern (k :: key)) (ws ++ t)
             = Re.search (reading_pattern (k :: key)) t).
  { induction ws as [|w ws IH]; intros t Hw; [reflexivity|].
    cbn [forallb] in Hw. apply andb_true_iff in Hw. destruct Hw as [Hw Hws].
    cbn [app]. rewrite search_cons, scan_other_initial; [now apply IH|].
    intros ->. congruence. }
  rewrite (Hsp lead _ Hlead).
  induction s as [|c s IH]; cbn [app].
  - rewrite <- (app_nil_r trail). now rewrite (Hsp trail [] Htrail).
  - rewrite !search_cons.
    change (c :: s ++ trail) with ((c :: s) ++ trail).
    rewrite (scan_pad (k :: key) (c :: s) trail) by (discriminate || assumption).
    now rewrite IH.
Qed.

Lemma forallb_rev (p : ascii -> bool) (s : text) :
  forallb p s = true -> forallb p (rev s) = true.
Proof.
  rewrite !forallb_forall. intros H x Hx. apply H. now apply in_rev.
Qed.

Lemma strip_padding (raw : text) :
  exists lead trail,
    raw = lead ++ strip raw ++ trail
    /\ forallb Re.is_space lead = true
    /\ forallb Re.is_space trail = true.
Proof.
  exists (take_while Re.is_space raw),
    (rev (take_while Re.is_space (rev (drop_while Re.is_space raw)))).
  split; [|split].
  - unfold strip. rewrite <- rev_app_distr, take_drop_while, rev_involutive.
    now rewrite take_drop_while.
  - apply take_while_all.
  - apply forallb_rev, take_while_all.
Qed.

Lemma extraction_pad (lead s trail : text) :
  forallb Re.is_space lead = true ->
  forallb Re.is_space trail = true ->
  extract_sensor_values (lead ++ s ++ trail) = extract_sensor_values s.
Proof.
  intros Hl Ht.
  assert (Hp : forall c,
             Re.search (reading_pattern (keyword c)) (lead ++ s ++ trail)
             = Re.search (reading_pattern (keyword c)) s).
  { intros [|].
    - exact (search_pad "P" (str "hotoresistor:") lead s trail
               eq_refl eq_refl Hl Ht).
    - exact (search_pad "S" (str "ound Sensor:") lead s trail
               eq_refl eq_refl Hl Ht). }
  unfold extract_sensor_values.
  change photo_pattern with (reading_pattern (keyword Photo)).
  change sound_pattern with (reading_pattern (keyword Sound)).
  now rewrite !Hp.
Qed.

Lemma extracted_strip (raw : text) :
  fst (extract_sensor_values (strip raw)) = extracted Photo raw
  /\ snd (extract_sensor_values (strip raw)) = extracted Sound raw.
Proof.
  destruct (strip_padding raw) as (lead & trail & E & Hl & Ht).
  unfold extracted. rewrite E at 2 4.
  rewrite (extraction_pad lead (strip raw) trail Hl Ht). auto.
Qed.

(** X11.  [strip()] never changes what is extracted: whitespace before
    and after a line, whether or not it is stripped, has no effect on the
    result of [extract_sensor_values]. *)
Theorem strip_does_not_change_extraction (raw : text) :
  extract_sensor_values (strip raw) = extract_sensor_values raw
  /\ (forall lead trail,
         forallb Re.is_space lead = true ->
         forallb Re.is_space trail = true ->
         extract_sensor_values (lead ++ raw ++ trail)
         = extract_sensor_values raw).
Proof.
  split; [|intros lead trail Hl Ht; now apply extraction_pad].
  destruct (strip_padding raw) as (lead & trail & E & Hl & Ht).
  rewrite E at 2. symmetry. now apply extraction_pad.
Qed.

(** ** From lines to triggers *)

Lemma value_of_line (c : channel) (raw : text) (now : Q) :
  value c (reading_of_line raw now) = extracted c raw
  /\ current_time (reading_of_line raw now) = now.
Proof.
  unfold reading_of_line.
  destruct (extracted_strip raw) as [Hp Hs].
  destruct (extract_sensor_values (strip raw)) as [pv sv].
  cbn [fst snd] in Hp, Hs.
  destruct c; cbn [value photo_value sound_value current_time extracted];
    split; auto.
Qed.

Lemma window_in_history {A : Type} (l : list A) (w : nat) (x : A) :
  In x (Py.slice_last l w) -> In x l.
Proof.
  intro H. destruct (slice_last_suffix l w) as (older & E).
  rewrite E. apply in_or_app. now right.
Qed.

Lemma run_nth (pt stt : Q) (c : channel) (inputs : list reading) :
  forall st st' outs k r out,
    run pt stt st inputs = Some (st', outs) ->
    nth_error inputs k = Some r ->
    nth_error outs k = Some out ->
    exists stk stk',
      loop_body pt stt r stk = Some (tt, stk', out)
      /\ history c stk = history c st ++ samples c (firstn k inputs).
Proof.
  induction inputs as [|r0 rest IH]; intros st st' outs k r out Hrun Hk Ho.
  - destruct k; discriminate.
  - apply run_cons in Hrun.
    destruct Hrun as (st1 & o & outs' & Hb & Hrest & ->).
    destruct k as [|k]; cbn [nth_error] in Hk, Ho.
    + injection Hk as <-. injection Ho as <-.
      exists st, st1. split; [exact Hb|]. cbn. now rewrite app_nil_r.
    + destruct (IH st1 st' outs' k r out Hrest Hk Ho)
        as (stk & stk' & Hbk & Hh).
      exists stk, stk'. split; [exact Hbk|].
      rewrite Hh. cbn [firstn]. rewrite samples_cons.
      destruct (loop_body_channel pt stt c r0 st st1 o Hb) as (Hh1 & _).
      rewrite Hh1. destruct (value c r0); [|reflexivity].
      now rewrite <- app_assoc.
Qed.

Lemma fire_needs_value (pt stt : Q) (c : channel) (r : reading)
    (st st' : state) (out : list event) :
  loop_body pt stt r st = Some (tt, st', out) ->
  fired c out = true ->
  (forall x, In x (history c st) -> 0 <= x) ->
  (forall v, value c r = Some v -> 0 <= v) ->
  exists v, value c r = Some v /\ threshold pt stt c < v.
Proof.
  intros Hb F Hh Hv.
  destruct (fired_true pt stt c r st st' out Hb F)
    as (v & Ev & _ & Ht & _).
  exists v. split; [exact Ev|].
  assert (0 <= baseline_value (history c st ++ [v]) default_window_size).
  { apply baseline_value_lower.
    - unfold default_window_size. lia.
    - destruct (history c st); discriminate.
    - intros x Hx. apply window_in_history in Hx.
      apply in_app_or in Hx. destruct Hx as [Hx|[<-|[]]]; auto. }
  lra.
Qed.

Lemma loop_body_silent (pt stt : Q) (r : reading) (st st' : state)
    (out : list event) :
  loop_body pt stt r st = Some (tt, st', out) ->
  value Photo r = None -> value Sound r = None ->
  st' = st /\ out = [].
Proof.
  rewrite loop_body_step. unfold step. cbn [value]. intros H Hp Hs.
  rewrite Hp, Hs in H.
  cbn [detect photo_events sound_events app fst snd] in H.
  injection H as <- <-. destruct st; auto.
Qed.

Lemma samples_of_lines_nonneg (c : channel) (lines : list (text * Q))
    (x : Q) :
  In x (samples c (map (fun l => reading_of_line (fst l) (snd l)) lines)) ->
  0 <= x.
Proof.
  induction lines as [|[raw now] lines IH]; cbn [map]; [intros []|].
  rewrite samples_cons. cbn [fst snd].
  destruct (value_of_line c raw now) as [Ev _]. rewrite Ev.
  destruct (extracted c raw) as [v|] eqn:E; [|exact IH].
  intros [<-|H]; [|now apply IH].
  exact (extraction_nonneg c raw v E).
Qed.

(** X12.  When the loop is fed lines, every value in a channel's
    history is non-negative, a channel only fires on a line whose value
    for it is strictly greater than the threshold (the baseline being
    non-negative, the increase cannot exceed the value), and a line that
    carries a reading for neither channel produces no report and no
    trigger. *)
Theorem readings_not_above_threshold_never_trigger (pt stt : Q)
    (c : channel) (lines : list (text * Q)) (st' : state)
    (outs : list (list event)) :
  read_lines pt stt lines = Some (st', outs) ->
  (forall x, In x (history c st') -> 0 <= x)
  /\ (forall k raw now out,
         nth_error lines k = Some (raw, now) ->
         nth_error outs k = Some out ->
         (fired c out = true ->
          exists v, extracted c raw = Some v /\ threshold pt stt c < v)
         /\ (extracted Photo raw = None -> extracted Sound raw = None ->
             out = [])).
Proof.
  unfold read_lines, read_arduino_data. intro Hrun. split.
  - intros x Hx. rewrite (run_history pt stt c _ _ _ _ Hrun) in Hx.
    apply in_app_or in Hx. destruct Hx as [Hx|Hx].
    + destruct c; destruct Hx.
    + exact (samples_of_lines_nonneg c lines x Hx).
  - intros k raw now out Hk Ho.
    assert (Hr : nth_error
                   (map (fun l => reading_of_line (fst l) (snd l)) lines) k
                 = Some (reading_of_line raw now)).
    { rewrite nth_error_map, Hk. reflexivity. }
    destruct (run_nth pt stt c _ _ _ _ k _ out Hrun Hr Ho)
      as (stk & stk' & Hb & Hh).
    split.
    + intro F.
      destruct (value_of_line c raw now) as [Ev _].
      rewrite <- Ev.
      apply (fire_needs_value pt stt c _ stk stk' out Hb F).
      * intros x Hx. rewrite Hh in Hx. apply in_app_or in Hx.
        destruct Hx as [Hx|Hx]; [destruct c; destruct Hx|].
        rewrite firstn_map in Hx.
        exact (samples_of_lines_nonneg c _ x Hx).
      * intros v Hv. rewrite Ev in Hv.
        exact (extraction_nonneg c raw v Hv).
    + intros Hp Hs.
      destruct (value_of_line Photo raw now) as [Evp _].
      destruct (value_of_line Sound raw now) as [Evs _].
      rewrite <- Evp in Hp. rewrite <- Evs in Hs.
      now destruct (loop_body_silent pt stt _ stk stk' out Hb Hp Hs).
Qed.

Lemma readings_not_above_threshold_never_trigger_witness :
  let lines :=
    [(str "Photoresistor: 10", 1); (str "Photoresistor: 10", 2);
     (str "booting...", 3); (str "  Photoresistor: 10 ", 4);
     (str "Photoresistor: 94.5, Sound Sensor: 3", 5)] in
  let st' := {| last_stress_trigger := 5; last_sound_trigger := 0;
                photo_history := [10; 10; 10; 945 # 10];
                sound_history := [3] |} in
  (forall x, In x (history Photo st') -> 0 <= x)
  /\ exists outs,
       map (fired Photo) outs = [false; false; false; false; true]
       /\ forall k raw now out,
            nth_error lines k = Some (raw, now) ->
            nth_error outs k = Some out ->
            (fired Photo out = true ->
             exists v, extracted Photo raw = Some v
                       /\ threshold 15 2 Photo < v)
            /\ (extracted Photo raw = None -> extracted Sound raw = None ->
                out = []).
Proof.
  intros lines st'.
  assert (H : exists outs,
             read_lines 15 2 lines = Some (st', outs)
             /\ map (fired Photo) outs = [false; false; false; false; true]).
  { eexists. split; [vm_compute; reflexivity|reflexivity]. }
  destruct H as (outs & Hrun & Hf).
  destruct (readings_not_above_threshold_never_trigger 15 2 Photo lines
              st' outs Hrun) as [Hh Hk].
  split; [exact Hh|]. exists outs. split; [exact Hf|exact Hk].
Defined.

(** ** The session *)

Lemma loop_events_app (a b : list session_event) :
  loop_events (a ++ b) = loop_events a ++ loop_events b.
Proof.
  apply flat_map_app.
Qed.

Lemma loop_events_map (out : list event) : loop_events (map Loop out) = out.
Proof.
  induction out as [|e out IH]; [reflexivity|].
  cbn [map loop_events flat_map app] in *. unfold loop_events in IH.
  now rewrite IH.
Qed.

Lemma map_Loop_no_control (out : list event) (e : session_event) :
  In e (map Loop out) -> exists e', e = Loop e'.
Proof.
  intro H. apply in_map_iff in H. destruct H as (e' & <- & _). eauto.
Qed.

Lemma session_loop_cutoff (pt stt start duration : Q) (t : tick)
    (after : list tick) (before : list tick) :
  forallb (continues start duration) before = true ->
  continues start duration t = false ->
  forall st,
  exists st' outs evs,
    run pt stt st
      (map (fun l => reading_of_line (fst l) (snd l)) (arrived_lines before))
    = Some (st', outs)
    /\ session_loop pt stt start duration (before ++ t :: after) st
       = evs ++ [Disconnect]
    /\ session_loop pt stt start duration (before ++ [t]) st
       = evs ++ [Disconnect]
    /\ ~ In Disconnect evs
    /\ loop_events evs = concat outs.
Proof.
  intros Hb Ht. induction before as [|b before IH]; intro st.
  - exists st, []. cbn [arrived_lines flat_map map run app session_loop].
    unfold continues in Ht.
    destruct (Py.gt duration (clock t - start)).
    + destruct (arrived t); try discriminate.
      * exists [Error]. repeat split; auto. intros [H|[]]; discriminate.
      * exists [StoppedByUser]. repeat split; auto.
        intros [H|[]]; discriminate.
    + exists []. repeat split; auto.
  - cbn [forallb] in Hb. apply andb_true_iff in Hb. destruct Hb as [Hc Hb].
    specialize (IH Hb). unfold continues in Hc.
    apply andb_true_iff in Hc. destruct Hc as [Hclock Harr].
    unfold arrived_lines. cbn [app session_loop flat_map]. rewrite Hclock.
    destruct (arrived b) as [|raw now| |]; try discriminate.
    + cbn [app]. apply IH.
    + cbn [app map fst snd run].
      destruct (loop_body_total pt stt (reading_of_line raw now) st)
        as (st1 & out & Hbody).
      rewrite Hbody.
      destruct (IH st1) as (st' & outs & evs & Hrun & E1 & E2 & Hn & Hl).
      fold (arrived_lines before). rewrite Hrun, E1, E2.
      exists st', (out :: outs), (Echo (strip raw) :: map Loop out ++ evs).
      split; [reflexivity|].
      split; [cbn [app]; now rewrite <- app_assoc|].
      split; [cbn [app]; now rewrite <- app_assoc|].
      split.
      * intros [H|H]; [discriminate|].
        apply in_app_or in H. destruct H as [H|H]; [|now apply Hn].
        apply map_Loop_no_control in H. destruct H as (e' & H).
        discriminate.
      * change (Echo (strip raw) :: map Loop out ++ evs)
          with ([Echo (strip raw)] ++ map Loop out ++ evs).
        rewrite !loop_events_app, loop_events_map, Hl. reflexivity.
Qed.

(** X13.  The loop ends at the first iteration whose clock is no longer
    within [duration] of the start, or in which a line cannot be decoded
    or the user interrupts.  The port is then closed, once and last;
    whatever arrives afterwards is never processed, even if the clock
    goes back; and the reports and triggers of the session are exactly
    those of the loop body run over the lines that arrived before that
    iteration. *)
Theorem session_ends_once (pt stt start duration : Q)
    (before : list tick) (t : tick) (after : list tick) (st : state) :
  forallb (continues start duration) before = true ->
  continues start duration t = false ->
  exists st' outs evs,
    run pt stt st
      (map (fun l => reading_of_line (fst l) (snd l)) (arrived_lines before))
    = Some (st', outs)
    /\ session_loop pt stt start duration (before ++ t :: after) st
       = evs ++ [Disconnect]
    /\ session_loop pt stt start duration (before ++ [t]) st
       = evs ++ [Disconnect]
    /\ ~ In Disconnect evs
    /\ loop_events evs = concat outs.
Proof.
  intros Hb Ht. now apply session_loop_cutoff.
Qed.

Lemma session_ends_once_witness :
  exists st' outs evs,
    run 15 2 init_state
      (map (fun l => reading_of_line (fst l) (snd l))
         (arrived_lines
            [mkTick 1 (Line (str "Photoresistor: 7") 1); mkTick 2 Nothing]))
    = Some (st', outs)
    /\ session_loop 15 2 0 100
         ([mkTick 1 (Line (str "Photoresistor: 7") 1); mkTick 2 Nothing]
          ++ mkTick 100 Nothing
          :: [mkTick 3 (Line (str "Photoresistor: 999") 3)])
         init_state
       = evs ++ [Disconnect]
    /\ session_loop 15 2 0 100
         ([mkTick 1 (Line (str "Photoresistor: 7") 1); mkTick 2 Nothing]
          ++ [mkTick 100 Nothing])
         init_state
       = evs ++ [Disconnect]
    /\ ~ In Disconnect evs
    /\ loop_events evs = concat outs.
Proof.
  apply (session_ends_once 15 2 0 100
           [mkTick 1 (Line (str "Photoresistor: 7") 1); mkTick 2 Nothing]
           (mkTick 100 Nothing)
           [mkTick 3 (Line (str "Photoresistor: 999") 3)] init_state).
  - reflexivity.
  - reflexivity.
Defined.

Lemma session_loop_no_connect (pt stt start duration : Q)
    (ticks : list tick) :
  forall st p,
    ~ In (Connect p) (session_loop pt stt start duration ticks st).
Proof.
  induction ticks as [|t ticks IH]; intros st p; cbn [session_loop].
  - intros [].
  - destruct (Py.gt duration (clock t - start));
      [|intros [H|[]]; discriminate].
    destruct (arrived t) as [|raw now| |].
    + apply IH.
    + destruct (loop_body pt stt (reading_of_line raw now) st)
        as [[[[] st1] out]|].
      * intros [H|H]; [discriminate|].
        apply in_app_or in H. destruct H as [H|H]; [|exact (IH st1 p H)].
        apply map_Loop_no_control in H. destruct H as (e' & H).
        discriminate.
      * intros [H|[H|[H|[]]]]; discriminate.
    + intros [H|[H|[]]]; discriminate.
    + intros [H|[H|[]]]; discriminate.
Qed.

(** X14.  [read_arduino_data] reports that no Arduino was found exactly
    when it is given no port and discovery finds none; a port given by
    the caller is used without discovery; it connects to no other port
    than the chosen one, and only if that port opens; and without a
    connection it processes no line and closes no port. *)
Theorem session_needs_a_port (glob : text -> list text)
    (can_open : text -> bool) (port : option text)
    (duration pt stt start : Q) (ticks : list tick) :
  let evs := read_arduino_data_session glob can_open port duration pt stt
               start ticks in
  let chosen := if falsy port then find_arduino_port glob else port in
  (evs = [NoArduino] <-> falsy chosen = true)
  /\ (forall p, In (Connect p) evs ->
                chosen = Some p /\ can_open p = true
                /\ evs = Connect p
                         :: session_loop pt stt start duration ticks
                              init_state)
  /\ ((forall p, ~ In (Connect p) evs) ->
      loop_events evs = [] /\ ~ In Disconnect evs)
  /\ (falsy port = false ->
      forall glob',
        read_arduino_data_session glob' can_open port duration pt stt
          start ticks = evs).
Proof.
  intros evs chosen. subst evs. unfold read_arduino_data_session.
  fold chosen. split; [|split; [|split]].
  - destruct chosen as [[|c p]|]; cbn [falsy].
    + split; reflexivity.
    + split; [|discriminate].
      destruct (can_open (c :: p)); discriminate.
    + split; reflexivity.
  - intros p H. destruct chosen as [[|c q]|].
    + destruct H as [H|[]]; discriminate.
    + destruct (can_open (c :: q)) eqn:O.
      * destruct H as [H|H].
        -- injection H as <-. auto.
        -- now apply session_loop_no_connect in H.
      * destruct H as [H|[]]; discriminate.
    + destruct H as [H|[]]; discriminate.
  - intro H. destruct chosen as [[|c q]|].
    + split; [reflexivity|]. intros [E|[]]; discriminate.
    + destruct (can_open (c :: q)).
      * exfalso. apply (H (c :: q)). now left.
      * split; [reflexivity|]. intros [E|[]]; discriminate.
    + split; [reflexivity|]. intros [E|[]]; discriminate.
  - intros Hf glob'. subst chosen. now rewrite Hf.
Qed.
